(** * mash: token catalog, lexer state machine and command parser

    A shallow embedding of the front end of the mash shell
    (github.com/raklaptudirm/mash): package [token] (kinds, spelling table,
    keyword map), package [lexer] (rune consumption and the state
    functions) and package [parser] (statements and the command
    precedence chain), followed by the properties of the specification
    that were checked against them.

    Go's [int] and [rune] are modelled as [Z], a Go [string] as a Rocq
    [string] read byte by byte, a Go map as a [gmap], a slice as a [list].
    A run-time panic (index or slice out of range) is [None]. *)

From Stdlib Require Import ZArith Lia Ascii String List Bool.
From stdpp Require Import base option list list_numbers strings gmap pretty.

Local Open Scope string_scope.
Local Open Scope Z_scope.

(** ** Package token *)

Module token.

(** [type Type int]; the state functions of the lexer call it
    [token.TokenType]. *)
Definition TokenType := Z.

(* Special tokens *)
Definition Illegal : TokenType := 0.
Definition Eof : TokenType := Illegal + 1.
Definition Comment : TokenType := Eof + 1.

Definition literalBeg : TokenType := Comment + 1.
(* Identifiers and basic type literals *)
Definition Identifier : TokenType := literalBeg + 1.
Definition Number : TokenType := Identifier + 1.
Definition String_ : TokenType := Number + 1.
Definition literalEnd : TokenType := String_ + 1.

Definition operatorBeg : TokenType := literalEnd + 1.
(* Operators and delimiters *)
Definition Addition : TokenType := operatorBeg + 1.
Definition Subtraction : TokenType := Addition + 1.
Definition Multiplication : TokenType := Subtraction + 1.
Definition Quotient : TokenType := Multiplication + 1.
Definition Remainder : TokenType := Quotient + 1.

Definition And : TokenType := Remainder + 1.
Definition Or : TokenType := And + 1.
Definition Xor : TokenType := Or + 1.
Definition ShiftLeft : TokenType := Xor + 1.
Definition ShiftRight : TokenType := ShiftLeft + 1.
Definition AndNot : TokenType := ShiftRight + 1.

Definition AdditionAssign : TokenType := AndNot + 1.
Definition SubtractionAssign : TokenType := AdditionAssign + 1.
Definition MultiplicationAssign : TokenType := SubtractionAssign + 1.
Definition QuotientAssign : TokenType := MultiplicationAssign + 1.
Definition RemainderAssign : TokenType := QuotientAssign + 1.

Definition AndAssign : TokenType := RemainderAssign + 1.
Definition OrAssign : TokenType := AndAssign + 1.
Definition XorAssign : TokenType := OrAssign + 1.
Definition ShiftLeftAssign : TokenType := XorAssign + 1.
Definition ShiftRightAssign : TokenType := ShiftLeftAssign + 1.
Definition AndNotAssign : TokenType := ShiftRightAssign + 1.

Definition LogicalAnd : TokenType := AndNotAssign + 1.
Definition LogicalOr : TokenType := LogicalAnd + 1.

Definition Equal : TokenType := LogicalOr + 1.
Definition LessThan : TokenType := Equal + 1.
Definition GreaterThan : TokenType := LessThan + 1.
Definition Assign : TokenType := GreaterThan + 1.
Definition Define : TokenType := Assign + 1.
Definition Not : TokenType := Define + 1.

Definition NotEqual : TokenType := Not + 1.
Definition LessThanEqual : TokenType := NotEqual + 1.
Definition GreaterThanEqual : TokenType := LessThanEqual + 1.

Definition LeftParen : TokenType := GreaterThanEqual + 1.
Definition LeftBrack : TokenType := LeftParen + 1.
Definition LeftBrace : TokenType := LeftBrack + 1.
Definition Template : TokenType := LeftBrace + 1.
Definition Comma : TokenType := Template + 1.
Definition Period : TokenType := Comma + 1.

Definition RightParen : TokenType := Period + 1.
Definition RightBrack : TokenType := RightParen + 1.
Definition RightBrace : TokenType := RightBrack + 1.
Definition Semicolon : TokenType := RightBrace + 1.
Definition Colon : TokenType := Semicolon + 1.
Definition operatorEnd : TokenType := Colon + 1.

Definition keywordBeg : TokenType := operatorEnd + 1.
(* Keywords *)
Definition For : TokenType := keywordBeg + 1.
Definition If : TokenType := For + 1.
Definition Else : TokenType := If + 1.

Definition Let : TokenType := Else + 1.
Definition Obj : TokenType := Let + 1.
Definition Func : TokenType := Obj + 1.

Definition Break : TokenType := Func + 1.
Definition Continue : TokenType := Break + 1.
Definition Return : TokenType := Continue + 1.
Definition keywordEnd : TokenType := Return + 1.

(** The keyed elements of the array literal [tokens], in source order. *)
Definition tokens_elements : list (TokenType * string) :=
  [ (Illegal, "ILLEGAL");
    (Eof, "EOF"); (Comment, "COMMENT");
    (Identifier, "IDENT"); (Number, "FLOAT"); (String_, "STRING");
    (Addition, "+"); (Subtraction, "-"); (Multiplication, "*");
    (Quotient, "/"); (Remainder, "%");
    (And, "&"); (Or, "|"); (Xor, "^"); (ShiftLeft, "<<");
    (ShiftRight, ">>"); (AndNot, "&^");
    (AdditionAssign, "+="); (SubtractionAssign, "-=");
    (MultiplicationAssign, "*="); (QuotientAssign, "/=");
    (RemainderAssign, "%=");
    (AndAssign, "&="); (OrAssign, "|="); (XorAssign, "^=");
    (ShiftLeftAssign, "<<="); (ShiftRightAssign, ">>=");
    (AndNotAssign, "&^=");
    (LogicalAnd, "&&"); (LogicalOr, "||");
    (Equal, "=="); (LessThan, "<"); (GreaterThan, ">"); (Assign, "=");
    (Not, "!");
    (NotEqual, "!="); (LessThanEqual, "<="); (GreaterThanEqual, ">=");
    (Define, ":=");
    (LeftParen, "("); (LeftBrack, "["); (LeftBrace, "{");
    (Template, "'"); (Comma, ","); (Period, ".");
    (RightParen, ")"); (RightBrack, "]"); (RightBrace, "}");
    (Semicolon, ";"); (Colon, ":");
    (For, "for"); (If, "if"); (Else, "else");
    (Let, "let"); (Obj, "obj"); (Func, "func");
    (Break, "break"); (Continue, "continue"); (Return, "return") ].

(** A Go array literal [[...]string{k: v, ...}]: its length is one more
    than the largest key and an index without an element holds the zero
    value, the empty string. *)
Definition array_literal (elems : list (Z * string)) : list string :=
  let len := foldr (fun kv m => Z.max (fst kv + 1) m) 0 elems in
  (fun i => match find (fun kv => fst kv =? i) elems with
            | Some kv => snd kv
            | None => EmptyString
            end) <$> seqZ 0 len.

Definition tokens : list string := array_literal tokens_elements.

(** [tokens[i]] for an index in range. *)
Definition tokens_at (i : Z) : string :=
  nth (Z.to_nat i) tokens EmptyString.

(** The loop of [token]: [for t, val := range tokens]. *)
Fixpoint token_range (t : Z) (vals : list string) (s : string) : TokenType :=
  match vals with
  | [] => Illegal
  | val :: vals' => if String.eqb val s then t else token_range (t + 1) vals' s
  end.

Definition token (s : string) : TokenType := token_range 0 tokens s.

(** [func (tok Type) String() string]; [strconv.Itoa] prints in decimal. *)
Definition TypeString (tok : TokenType) : string :=
  let s := if (0 <=? tok) && (tok <? Z.of_nat (length tokens))
           then tokens_at tok else EmptyString in
  if String.eqb s EmptyString
  then ("token(" ++ pretty tok ++ ")")%string
  else s.

Definition IsLiteral (tok : TokenType) : bool :=
  (literalBeg <? tok) && (tok <? literalEnd).

(** The method [tok.IsOperator()]; the function of that name on strings
    is [IsOperator] below. *)
Definition IsOperatorType (tok : TokenType) : bool :=
  (operatorBeg <? tok) && (tok <? operatorEnd).

(** The method [tok.IsKeyword()]; the function of that name on strings
    is [IsKeyword] below. *)
Definition IsKeywordType (tok : TokenType) : bool :=
  (keywordBeg <? tok) && (tok <? keywordEnd).

Definition InsertSemi (tok : TokenType) : bool :=
  if IsLiteral tok then true
  else (tok =? RightParen) || (tok =? RightBrack) || (tok =? RightBrace)
       || (tok =? Break) || (tok =? Continue) || (tok =? Return).

(** [init]: [for i := keywordBeg + 1; i < keywordEnd; i++
    { keywords[tokens[i]] = i }]. *)
Definition keywords : gmap string TokenType :=
  foldl (fun m i => <[tokens_at i := i]> m) ∅
        (seqZ (keywordBeg + 1) (keywordEnd - (keywordBeg + 1))).

Definition IsKeyword (name : string) : bool :=
  match keywords !! name with
  | Some _ => true
  | None => false
  end.

Definition IsOperator (s : string) : bool :=
  IsOperatorType (token s).

Definition Lookup (name : string) : TokenType :=
  match keywords !! name with
  | Some tok => tok
  | None => Identifier
  end.

(** [token.Position]; its declaration is not among the sources. *)
Record Position := mkPosition { Line : Z; Col : Z }.

(** Modelled from the spec: [Position.NextLine], which the lexer calls
    after a newline, is missing from the sources; "a newline resets column
    to 1 and increments line". *)
Definition NextLine (p : Position) : Position :=
  {| Line := Line p + 1; Col := 1 |}.

Record Token := mkToken {
  Type_ : TokenType;     (* type of the token *)
  Literal : string;      (* literal in source *)
  Pos : Position         (* position in source *)
}.

(** The parser and the state functions were written against the earlier
    spelling of the same constants (the one the strings of [tokens] still
    show: "IDENT", "FLOAT", "STRING", ...). *)
Definition ILLEGAL := Illegal.
Definition EOF := Eof.
Definition COMMENT := Comment.
Definition FLOAT := Number.
Definition STRING := String_.
Definition ADD := Addition.
Definition SUB := Subtraction.
Definition MUL := Multiplication.
Definition QUO := Quotient.
Definition REM := Remainder.
Definition AND := And.
Definition OR := Or.
Definition XOR := Xor.
Definition LSS := LessThan.
Definition GTR := GreaterThan.
Definition ASSIGN := Assign.
Definition NOT := Not.
Definition LAND := LogicalAnd.
Definition LOR := LogicalOr.
Definition LPAREN := LeftParen.
Definition LBRACE := LeftBrace.
Definition COMMA := Comma.
Definition RPAREN := RightParen.
Definition RBRACK := RightBrack.
Definition RBRACE := RightBrace.
Definition SEMICOLON := Semicolon.
Definition COLON := Colon.
Definition LET := Let.
Definition IF := If.
Definition FOR := For.

End token.

(** ** Go strings and the standard packages the lexer calls *)

(** A Go string is a sequence of bytes: [len(s)], [s[i]], [s[i:j]].
    Indexing or slicing out of range panics. *)
Module gostring.

Definition byte (c : ascii) : Z := Z.of_N (N_of_ascii c).

Definition bytes (s : string) : list Z := byte <$> list_ascii_of_string s.

Definition of_bytes (bs : list Z) : string :=
  string_of_list_ascii ((fun b => ascii_of_N (Z.to_N b)) <$> bs).

Definition len (s : string) : Z := Z.of_nat (String.length s).

Definition index (s : string) (i : Z) : option Z :=
  if i <? 0 then None else byte <$> String.get (Z.to_nat i) s.

Definition slice (s : string) (i j : Z) : option string :=
  if (0 <=? i) && (i <=? j) && (j <=? len s)
  then Some (String.substring (Z.to_nat i) (Z.to_nat (j - i)) s)
  else None.

Definition slice_from (s : string) (i : Z) : option string :=
  slice s i (len s).

End gostring.

(** Package unicode/utf8 of the Go standard library. *)
Module utf8.

Definition RuneError : Z := 0xFFFD.
Definition RuneSelf : Z := 0x80.

Definition maskx : Z := 0x3F.
Definition mask2 : Z := 0x1F.
Definition mask3 : Z := 0x0F.
Definition mask4 : Z := 0x07.

Definition locb : Z := 0x80.
Definition hicb : Z := 0xBF.

Definition xx : Z := 0xF1. (* invalid: size 1 *)
Definition as_ : Z := 0xF0. (* ASCII: size 1 *)
Definition s1 : Z := 0x02. (* accept 0, size 2 *)
Definition s2 : Z := 0x13. (* accept 1, size 3 *)
Definition s3 : Z := 0x03. (* accept 0, size 3 *)
Definition s4 : Z := 0x23. (* accept 2, size 3 *)
Definition s5 : Z := 0x34. (* accept 3, size 4 *)
Definition s6 : Z := 0x04. (* accept 0, size 4 *)
Definition s7 : Z := 0x44. (* accept 4, size 4 *)

(** The table [first]: information about the first byte of an encoding. *)
Definition first (b : Z) : Z :=
  if b <? 0x80 then as_
  else if b <? 0xC2 then xx
  else if b <? 0xE0 then s1
  else if b =? 0xE0 then s2
  else if b <? 0xED then s3
  else if b =? 0xED then s4
  else if b <? 0xF0 then s3
  else if b =? 0xF0 then s5
  else if b <? 0xF4 then s6
  else if b =? 0xF4 then s7
  else xx.

(** The table [acceptRanges]: bounds of the second byte. *)
Definition acceptRanges (i : Z) : Z * Z :=
  if i =? 1 then (0xA0, hicb)
  else if i =? 2 then (locb, 0x9F)
  else if i =? 3 then (0x90, hicb)
  else if i =? 4 then (locb, 0x8F)
  else (locb, hicb).

Definition DecodeRuneInString (s : string) : Z * Z :=
  match gostring.bytes s with
  | [] => (RuneError, 0)
  | s0 :: rest0 =>
    let x := first s0 in
    if as_ <=? x then
      (* [mask := rune(x) << 31 >> 31]: all ones exactly when x is odd *)
      (if Z.odd x then RuneError else s0, 1)
    else
      let sz := Z.land x 7 in
      let accept := acceptRanges (Z.shiftr x 4) in
      if gostring.len s <? sz then (RuneError, 1)
      else
        match rest0 with
        | [] => (RuneError, 1)
        | b1 :: rest1 =>
          if (b1 <? fst accept) || (snd accept <? b1) then (RuneError, 1)
          else if sz <=? 2 then
            (Z.lor (Z.shiftl (Z.land s0 mask2) 6) (Z.land b1 maskx), 2)
          else
            match rest1 with
            | [] => (RuneError, 1)
            | b2 :: rest2 =>
              if (b2 <? locb) || (hicb <? b2) then (RuneError, 1)
              else if sz <=? 3 then
                (Z.lor (Z.lor (Z.shiftl (Z.land s0 mask3) 12)
                              (Z.shiftl (Z.land b1 maskx) 6))
                       (Z.land b2 maskx), 3)
              else
                match rest2 with
                | [] => (RuneError, 1)
                | b3 :: _ =>
                  if (b3 <? locb) || (hicb <? b3) then (RuneError, 1)
                  else
                    (Z.lor (Z.lor (Z.lor (Z.shiftl (Z.land s0 mask4) 18)
                                         (Z.shiftl (Z.land b1 maskx) 12))
                                  (Z.shiftl (Z.land b2 maskx) 6))
                           (Z.land b3 maskx), 4)
                end
            end
        end
  end.

(** The conversion [string(r)] of a rune: its UTF-8 encoding, and the
    encoding of [RuneError] for a value that is not a valid code point. *)
Definition string_of_rune (r : Z) : string :=
  gostring.of_bytes
    (if (r <? 0) || (0x10FFFF <? r) || ((0xD800 <=? r) && (r <=? 0xDFFF))
     then [0xEF; 0xBF; 0xBD]
     else if r <=? 0x7F then [r]
     else if r <=? 0x7FF then
       [Z.lor 0xC0 (Z.shiftr r 6); Z.lor 0x80 (Z.land r maskx)]
     else if r <=? 0xFFFF then
       [Z.lor 0xE0 (Z.shiftr r 12);
        Z.lor 0x80 (Z.land (Z.shiftr r 6) maskx);
        Z.lor 0x80 (Z.land r maskx)]
     else
       [Z.lor 0xF0 (Z.shiftr r 18);
        Z.lor 0x80 (Z.land (Z.shiftr r 12) maskx);
        Z.lor 0x80 (Z.land (Z.shiftr r 6) maskx);
        Z.lor 0x80 (Z.land r maskx)]).

End utf8.

(** Package unicode of the Go standard library. A rune up to [MaxLatin1]
    is classified by a switch or the [properties] table; above it the
    range tables are searched. [White_Space] is written out; the tables
    [Letter] and [Digit] are taken as they come (see [lexer.externals]). *)
Module unicode.

Definition MaxLatin1 : Z := 0xFF.

Definition White_Space : list (Z * Z) :=
  [ (0x0009, 0x000d); (0x0020, 0x0020); (0x0085, 0x0085); (0x00a0, 0x00a0);
    (0x1680, 0x1680); (0x2000, 0x200a); (0x2028, 0x2029); (0x202f, 0x202f);
    (0x205f, 0x205f); (0x3000, 0x3000) ].

Definition in_ranges (tab : list (Z * Z)) (r : Z) : bool :=
  existsb (fun lh => (fst lh <=? r) && (r <=? snd lh)) tab.

(** The only negative rune the lexer tests is [eof], which is in no
    table. *)
Definition IsSpace (r : Z) : bool :=
  if (0 <=? r) && (r <=? MaxLatin1) then
    (r =? 9) || (r =? 10) || (r =? 11) || (r =? 12) || (r =? 13)
    || (r =? 32) || (r =? 0x85) || (r =? 0xA0)
  else in_ranges White_Space r.

Definition IsDigit (Digit : Z -> bool) (r : Z) : bool :=
  if r <=? MaxLatin1 then (48 <=? r) && (r <=? 57) else Digit r.

(** Latin-1 letters: the entries of [properties] with [pLu], [pLl] or
    [pLo]. *)
Definition IsLetter (Letter : Z -> bool) (r : Z) : bool :=
  if (0 <=? r) && (r <=? MaxLatin1) then
    ((0x41 <=? r) && (r <=? 0x5A)) || ((0x61 <=? r) && (r <=? 0x7A))
    || (r =? 0xAA) || (r =? 0xB5) || (r =? 0xBA)
    || ((0xC0 <=? r) && (r <=? 0xD6)) || ((0xD8 <=? r) && (r <=? 0xF6))
    || ((0xF8 <=? r) && (r <=? 0xFF))
  else Letter r.

End unicode.

(** ** Package lexer *)

Module lexer.
Import token.

(** Various error values returned by lexer.consume. *)
Inductive lexError := ErrNUL | ErrBOM | ErrEnc.

(** [lexer] represents a mash source string and related lexing
    information. The channel [Tokens] is the list of the tokens sent so
    far, oldest first, with [closed] set once [close(l.Tokens)] has run:
    a send blocks until the parser receives, which does not change what
    is sent. The handler [err] is external: [err] tells whether one was
    supplied (it may be nil) and [handled] lists its calls in order. *)
Record lexer := mkLexer {
  src : string;  (* source string *)
  ch : Z;        (* current character *)
  wd : Z;        (* character width *)
  insertSemi : bool;
  Tokens : list Token;
  closed : bool;
  err : bool;
  handled : list (Position * lexError);
  offset : Z;    (* offset of the start of the token in the source *)
  rdOffset : Z;  (* offset of the current rune in the source *)
  start : Position; (* position in the source of the start of the token *)
  prev : Position;  (* previous position in the source *)
  pos : Position;   (* position in the source of the current rune *)
  ErrCount : Z   (* number of errors encountered *)
}.

Definition eof : Z := -1.     (* end of file *)
Definition bom : Z := 0xFEFF. (* byte order mark *)

(** [Lex]: the lexer that [run] is started on. *)
Definition Lex (s : string) (handler : bool) : lexer :=
  let origin := {| Line := 1; Col := 1 |} in
  {| src := s; ch := 0; wd := 0; insertSemi := false;
     Tokens := []; closed := false;
     err := handler; handled := [];
     offset := 0; rdOffset := 0;
     start := origin; prev := {| Line := 0; Col := 0 |}; pos := origin;
     ErrCount := 0 |}.

Definition atEnd (l : lexer) : bool :=
  gostring.len (src l) <=? rdOffset l.

Definition literal (l : lexer) : option string :=
  gostring.slice (src l) (offset l) (rdOffset l).

Definition ignore (l : lexer) : lexer :=
  {| src := src l; ch := ch l; wd := wd l; insertSemi := insertSemi l;
     Tokens := Tokens l; closed := closed l;
     err := err l; handled := handled l;
     offset := rdOffset l; rdOffset := rdOffset l;
     start := pos l; prev := prev l; pos := pos l;
     ErrCount := ErrCount l |}.

Definition send (t : Token) (l : lexer) : lexer :=
  {| src := src l; ch := ch l; wd := wd l; insertSemi := insertSemi l;
     Tokens := Tokens l ++ [t]; closed := closed l;
     err := err l; handled := handled l;
     offset := offset l; rdOffset := rdOffset l;
     start := start l; prev := prev l; pos := pos l;
     ErrCount := ErrCount l |}.

Definition close (l : lexer) : lexer :=
  {| src := src l; ch := ch l; wd := wd l; insertSemi := insertSemi l;
     Tokens := Tokens l; closed := true;
     err := err l; handled := handled l;
     offset := offset l; rdOffset := rdOffset l;
     start := start l; prev := prev l; pos := pos l;
     ErrCount := ErrCount l |}.

Definition emit (t : TokenType) (l : lexer) : option lexer :=
  lit ← literal l;
  Some (ignore (send {| Type_ := t; Literal := lit; Pos := start l |} l)).

(** [error] calls the lexer's error handler, if there is one, with the
    err and the current position, and increases ErrCount by 1. *)
Definition error (e : lexError) (l : lexer) : lexer :=
  {| src := src l; ch := ch l; wd := wd l; insertSemi := insertSemi l;
     Tokens := Tokens l; closed := closed l;
     err := err l;
     handled := if err l then handled l ++ [(pos l, e)] else handled l;
     offset := offset l; rdOffset := rdOffset l;
     start := start l; prev := prev l; pos := pos l;
     ErrCount := ErrCount l + 1 |}.

Definition peek (l : lexer) : option Z :=
  if atEnd l then Some eof else gostring.index (src l) (rdOffset l).

(** The label [advance] of [consume]. *)
Definition advance (r w : Z) (l : lexer) : lexer :=
  let col := {| Line := Line (pos l); Col := Col (pos l) + w |} in
  {| src := src l; ch := r; wd := w; insertSemi := insertSemi l;
     Tokens := Tokens l; closed := closed l;
     err := err l; handled := handled l;
     offset := offset l; rdOffset := rdOffset l + w;
     start := start l; prev := pos l;
     pos := if r =? 10 then NextLine col else col;
     ErrCount := ErrCount l |}.

Definition consume (l : lexer) : option lexer :=
  if atEnd l then
    Some {| src := src l; ch := eof; wd := 0; insertSemi := insertSemi l;
            Tokens := Tokens l; closed := closed l;
            err := err l; handled := handled l;
            offset := offset l; rdOffset := rdOffset l;
            start := start l; prev := prev l; pos := pos l;
            ErrCount := ErrCount l |}
  else
    r ← gostring.index (src l) (rdOffset l);
    if r =? 0 then
      (* null rune is illegal in source *)
      Some (advance r 1 (error ErrNUL l))
    else if r <? utf8.RuneSelf then
      (* r is a single byte rune *)
      Some (advance r 1 l)
    else
      (* decode multi-byte rune *)
      rest ← gostring.slice_from (src l) (rdOffset l);
      let rw := utf8.DecodeRuneInString rest in
      if (fst rw =? utf8.RuneError) && (snd rw =? 1) then
        (* illegal unicode encoding *)
        Some (advance (fst rw) (snd rw) (error ErrEnc l))
      else if (fst rw =? bom) && (0 <? offset l) then
        (* bom is only legal as the first rune *)
        Some (advance (fst rw) (snd rw) (error ErrBOM l))
      else
        Some (advance (fst rw) (snd rw) l).

Definition backup (l : lexer) : lexer :=
  {| src := src l; ch := ch l; wd := wd l; insertSemi := insertSemi l;
     Tokens := Tokens l; closed := closed l;
     err := err l; handled := handled l;
     offset := offset l; rdOffset := rdOffset l - wd l;
     start := start l; prev := prev l; pos := prev l;
     ErrCount := ErrCount l |}.

(** The state functions: a [stateFunc] value is one of the five named
    functions, or nil ([None]). *)
Inductive stateFunc := lexBase | lexStmt | lexNum | lexStmtOp | lexCmd.

Definition isAlphabet (r : Z) : bool :=
  ((65 <? r) && (r <? 90)) || ((97 <? r) && (r <? 122)).

(** A loop [for cond(l.peek()) { l.consume() }]. Every round reads a
    byte of the source, so [n] rounds with [n] above the length of the
    source are never used up. *)
Fixpoint consume_while (n : nat) (cond : Z -> bool) (l : lexer) : option lexer :=
  match n with
  | O => None
  | S n' =>
    r ← peek l;
    if cond r then l' ← consume l; consume_while n' cond l' else Some l
  end.

(** Modelled from the spec: the helper [consumeSpace] is missing from the
    sources; "whitespace is skipped and never emitted", and every source
    byte "belongs to exactly one token or is discarded as
    whitespace/comment". *)
Definition consumeSpace (l : lexer) : option lexer :=
  l' ← consume_while (S (String.length (src l))) unicode.IsSpace l;
  Some (ignore l').

(** What the state functions use and the sources do not hold, taken as
    parameters: [Letter r] and [Digit r] stand for the search of the
    range tables [unicode.Letter] and [unicode.Digit] for a rune above
    Latin-1, and [consumeWord], [consumeIdent], [consumeString] and
    [consumeComment] for the scanning helpers of the lexer. *)
Record externals := mkExternals {
  Letter : Z -> bool;
  Digit : Z -> bool;
  consumeWord : lexer -> option lexer;
  consumeIdent : lexer -> option lexer;
  consumeString : lexer -> option lexer;
  consumeComment : lexer -> option lexer
}.

Section StateFunctions.

Variable X : externals.

Definition isIdentStart (r : Z) : bool :=
  (r =? 95) || unicode.IsLetter (Letter X) r.

Definition isIdent (r : Z) : bool :=
  isIdentStart r || unicode.IsDigit (Digit X) r.

Definition run_lexBase (l : lexer) : option (option stateFunc * lexer) :=
  r ← peek l;
  l1 ← (if unicode.IsSpace r then consumeSpace l else Some l);
  if isAlphabet r then
    l2 ← consumeWord X l1;
    word ← literal l2;
    if IsKeyword word then
      l3 ← emit (Lookup word) l2;
      Some (Some lexStmt, l3)
    else
      Some (Some lexCmd, backup l2)
  else
    Some (Some lexCmd, l1).

Definition run_lexStmt (l : lexer) : option (option stateFunc * lexer) :=
  l1 ← consume l;
  if unicode.IsSpace (ch l1) then
    (* ignore whitespace *)
    l2 ← consumeSpace l1;
    Some (Some lexStmt, l2)
  else if isIdentStart (ch l1) then
    (* identifier *)
    l2 ← consumeIdent X l1;
    lit ← literal l2;
    l3 ← emit (Lookup lit) l2;
    Some (Some lexStmt, l3)
  else if unicode.IsDigit (Digit X) (ch l1) then
    (* number *)
    Some (Some lexNum, l1)
  else if ch l1 =? 34 then
    (* format string *)
    l2 ← consumeString X l1;
    l3 ← emit STRING l2;
    Some (Some lexStmt, l3)
  else if IsOperator (utf8.string_of_rune (ch l1)) then
    Some (Some lexStmtOp, l1)
  else if ch l1 =? 35 then
    (* line comment *)
    l2 ← consumeComment X l1;
    l3 ← emit COMMENT l2;
    Some (Some lexStmt, l3)
  else if ch l1 =? eof then
    l2 ← emit EOF l1;
    Some (None, l2)
  else
    (* rune not supported *)
    l2 ← emit ILLEGAL l1;
    Some (Some lexStmt, l2).

Definition run_lexNum (l : lexer) : option (option stateFunc * lexer) :=
  l1 ← consume_while (S (String.length (src l))) (unicode.IsDigit (Digit X)) l;
  l2 ← emit FLOAT l1;
  Some (Some lexStmt, l2).

(** [var t token.TokenType] starts as the zero value, 0. *)
Definition run_lexStmtOp (l : lexer) : option (option stateFunc * lexer) :=
  let c := ch l in
  let t :=
    if c =? 43 (* + *) then ADD
    else if c =? 45 (* - *) then SUB
    else if c =? 42 (* * *) then MUL
    else if c =? 47 (* / *) then QUO
    else if c =? 37 (* % *) then REM
    else if c =? 38 (* & *) then AND
    else if c =? 124 (* | *) then OR
    else if c =? 94 (* ^ *) then XOR
    else if c =? 60 (* < *) then LSS
    else if c =? 62 (* > *) then GTR
    else if c =? 61 (* = *) then ASSIGN
    else if c =? 33 (* ! *) then NOT
    else if c =? 40 (* ( *) then LPAREN
    else if c =? 91 (* [ *) then LPAREN
    else if c =? 123 (* { *) then LBRACE
    else if c =? 44 (* , *) then COMMA
    else if c =? 41 (* ) *) then RPAREN
    else if c =? 93 (* ] *) then RBRACK
    else if c =? 125 (* } *) then RBRACE
    else if c =? 59 (* ; *) then SEMICOLON
    else if c =? 58 (* : *) then COLON
    else 0 in
  l1 ← emit t l;
  Some (Some lexStmt, l1).

Definition run_lexCmd (l : lexer) : option (option stateFunc * lexer) :=
  Some (None, l).

(** Calling a state function. *)
Definition call (state : stateFunc) (l : lexer) : option (option stateFunc * lexer) :=
  match state with
  | lexBase => run_lexBase l
  | lexStmt => run_lexStmt l
  | lexNum => run_lexNum l
  | lexStmtOp => run_lexStmtOp l
  | lexCmd => run_lexCmd l
  end.

(** [for state := lexBase; state != nil; { state = state(l) }], with
    [fuel] bounding the number of rounds ([None] when it runs out, as
    for a panic). *)
Fixpoint states (fuel : nat) (state : option stateFunc) (l : lexer) : option lexer :=
  match state with
  | None => Some l
  | Some f =>
    match fuel with
    | O => None
    | S fuel' => sl ← call f l; states fuel' (fst sl) (snd sl)
    end
  end.

Definition run (fuel : nat) (l : lexer) : option lexer :=
  l' ← states fuel (Some lexBase) l;
  Some (close l').

End StateFunctions.

End lexer.

(** ** Package ast *)

(** The node declarations are not among the sources; the fields are the
    ones the parser fills in. [ast.Statement] and [ast.Command] are
    interfaces: a statement slot may hold nil, which is [None]. *)
Module ast.
Import token.

Inductive Command :=
| LiteralCommand (Cmd : Token) (Args : list Token)
| UnaryCommand (Operator : Token) (Right : Command)
| BinaryCommand (Left : Command) (Operator : Token) (Right : Command)
| LogicalCommand (Left : Command) (Operator : Token) (Right : Command).

#[warnings="-register-all"] Inductive Statement :=
| BlockStatement (Statements : list (option Statement))
| CmdStatement (Command : Command).

Record Program := mkProgram { Statements : list (option Statement) }.

End ast.

(** ** Package parser *)

Module parser.
Import token ast.

(** Modelled from the spec: the parser struct is missing from the
    sources. It holds the window on the token stream: "current (token
    just consumed)" and the tokens not yet consumed, whose head is the
    peeked one; [errors] collects the messages given to [error], oldest
    first. *)
Record parser := mkParser {
  cur : Token;
  stream : list Token;
  errors : list string
}.

(** The zero value of [token.Token], which a receive from the closed
    token channel yields. *)
Definition zeroToken : Token :=
  {| Type_ := 0; Literal := EmptyString; Pos := {| Line := 0; Col := 0 |} |}.

(** Modelled from the spec: the constructor of the parser is missing from
    the sources; no token is consumed yet and the first token of the
    stream is the peeked one. *)
Definition new (ts : list Token) : parser :=
  {| cur := zeroToken; stream := ts; errors := [] |}.

(** Modelled from the spec: [current] is missing from the sources;
    "current (token just consumed)". *)
Definition current (p : parser) : Token := cur p.

(** Modelled from the spec: the field [tok] is missing from the sources;
    the kind of the token just consumed. *)
Definition tok (p : parser) : TokenType := Type_ (cur p).

(** Modelled from the spec: the field [pTok] is missing from the sources;
    "pTok/peek (kind of the next unconsumed token)". *)
Definition pTok (p : parser) : TokenType :=
  match stream p with
  | t :: _ => Type_ t
  | [] => Type_ zeroToken
  end.

(** Modelled from the spec: [next] is missing from the sources;
    "next (advance the window by one token)". *)
Definition next (p : parser) : parser :=
  match stream p with
  | t :: rest => {| cur := t; stream := rest; errors := errors p |}
  | [] => {| cur := zeroToken; stream := []; errors := errors p |}
  end.

(** Modelled from the spec: [match] is missing from the sources;
    "match(kind) (conditionally advance only if the peeked kind equals
    the expected kind, returning whether it matched)". *)
Definition match_ (kind : TokenType) (p : parser) : bool * parser :=
  if pTok p =? kind then (true, next p) else (false, p).

(** Modelled from the spec: [atEnd] is missing from the sources;
    "no more tokens AND stream closed". *)
Definition atEnd (p : parser) : bool :=
  match stream p with
  | [] => true
  | _ :: _ => false
  end.

(** Modelled from the spec: [error] is missing from the sources; a
    syntax error is "reported" and "the core never aborts the whole parse
    on a local fault; it accumulates an error count". *)
Definition error (msg : string) (p : parser) : parser :=
  {| cur := cur p; stream := stream p; errors := errors p ++ [msg] |}.

(** The functions below follow the sources. A loop or a call that the
    sources leave unbounded takes [fuel]; the result is [None] when it
    runs out, and only then. *)

(** The loop [for p.match(token.STRING)] of [parseCmdLit]. *)
Fixpoint parseCmdLit_args (fuel : nat) (cmd : Token) (args : list Token)
    (p : parser) : option (Command * parser) :=
  match fuel with
  | O => None
  | S fuel' =>
    let mp := match_ STRING p in
    if fst mp
    then parseCmdLit_args fuel' cmd (args ++ [current (snd mp)]) (snd mp)
    else Some (LiteralCommand cmd args, snd mp)
  end.

Definition parseCmdLit (fuel : nat) (p : parser) : option (Command * parser) :=
  let mp := match_ STRING p in
  let p1 := if fst mp then snd mp
            else error ("unexpected toke " ++ TypeString (pTok (snd mp))) (snd mp) in
  parseCmdLit_args fuel (current p1) [] p1.

(** The loop [for p.match(token.OR)] of [parseCmdPipe]. *)
Fixpoint parseCmdPipe_loop (fuel : nat) (expr : Command) (p : parser)
    : option (Command * parser) :=
  match fuel with
  | O => None
  | S fuel' =>
    let mp := match_ OR p in
    if fst mp then
      let tok := current (snd mp) in
      '(right_, p1) ← parseCmdLit fuel' (snd mp);
      parseCmdPipe_loop fuel' (BinaryCommand expr tok right_) p1
    else Some (expr, snd mp)
  end.

Definition parseCmdPipe (fuel : nat) (p : parser) : option (Command * parser) :=
  '(expr, p1) ← parseCmdLit fuel p;
  parseCmdPipe_loop fuel expr p1.

Definition parseCmdNot (fuel : nat) (p : parser) : option (Command * parser) :=
  let mp := match_ NOT p in
  if fst mp then
    let tok := current (snd mp) in
    '(right_, p1) ← parseCmdPipe fuel (snd mp);
    Some (UnaryCommand tok right_, p1)
  else parseCmdPipe fuel (snd mp).

(** The loop [for p.match(token.LAND)] of [parseCmdAnd]. *)
Fixpoint parseCmdAnd_loop (fuel : nat) (expr : Command) (p : parser)
    : option (Command * parser) :=
  match fuel with
  | O => None
  | S fuel' =>
    let mp := match_ LAND p in
    if fst mp then
      let tok := current (snd mp) in
      '(right_, p1) ← parseCmdNot fuel' (snd mp);
      parseCmdAnd_loop fuel' (LogicalCommand expr tok right_) p1
    else Some (expr, snd mp)
  end.

Definition parseCmdAnd (fuel : nat) (p : parser) : option (Command * parser) :=
  '(expr, p1) ← parseCmdNot fuel p;
  parseCmdAnd_loop fuel expr p1.

(** The loop [for p.match(token.LOR)] of [parseCmdLor]. *)
Fixpoint parseCmdLor_loop (fuel : nat) (expr : Command) (p : parser)
    : option (Command * parser) :=
  match fuel with
  | O => None
  | S fuel' =>
    let mp := match_ LOR p in
    if fst mp then
      let tok := current (snd mp) in
      '(right_, p1) ← parseCmdAnd fuel' (snd mp);
      parseCmdLor_loop fuel' (LogicalCommand expr tok right_) p1
    else Some (expr, snd mp)
  end.

Definition parseCmdLor (fuel : nat) (p : parser) : option (Command * parser) :=
  '(expr, p1) ← parseCmdAnd fuel p;
  parseCmdLor_loop fuel expr p1.

Definition parseCommand (fuel : nat) (p : parser) : option (Command * parser) :=
  parseCmdLor fuel p.

Definition parseCmdStmt (fuel : nat) (p : parser) : option (Statement * parser) :=
  '(c, p1) ← parseCommand fuel p;
  Some (CmdStatement c, p1).

(** The end of [parseStatement]: the terminator check and [return stmt]. *)
Definition terminator (stmt : option Statement) (p : parser)
    : option Statement * parser :=
  let mp := match_ SEMICOLON p in
  if fst mp then (stmt, snd mp)
  else (stmt,
        error ("unexpected token " ++ TypeString (pTok (snd mp))
               ++ ", expected " ++ TypeString SEMICOLON) (snd mp)).

(** [parseStatement], [parseBlockStmt] and the loop
    [for p.next(); p.tok != token.RBRACE; p.next()] of the latter, entered
    after its init statement. *)
Fixpoint parseStatement (fuel : nat) (p : parser)
    : option (option Statement * parser) :=
  match fuel with
  | O => None
  | S fuel' =>
    let k := pTok p in
    if k =? LBRACE then
      '(stmt, p1) ← parseBlockStmt fuel' p;
      Some (terminator (Some stmt) p1)
    else if k =? LET then
      (* parse expression *)
      Some (terminator None p)
    else if k =? IF then
      (* parse if *)
      Some (terminator None p)
    else if k =? FOR then
      (* parse for *)
      Some (terminator None p)
    else if (k =? STRING) || (k =? NOT) then
      '(stmt, p1) ← parseCmdStmt fuel' p;
      Some (terminator (Some stmt) p1)
    else
      Some (None,
            next (error ("illegal token " ++ TypeString (pTok p)
                         ++ " at line start") p))
  end
with parseBlockStmt (fuel : nat) (p : parser) : option (Statement * parser) :=
  match fuel with
  | O => None
  | S fuel' =>
    '(stmts, p1) ← parseBlockStmt_loop fuel' [] (next p);
    Some (BlockStatement stmts, p1)
  end
with parseBlockStmt_loop (fuel : nat) (stmts : list (option Statement))
    (p : parser) : option (list (option Statement) * parser) :=
  match fuel with
  | O => None
  | S fuel' =>
    if tok p =? RBRACE then Some (stmts, p)
    else
      '(stmt, p1) ← parseStatement fuel' p;
      parseBlockStmt_loop fuel' (stmts ++ [stmt]) (next p1)
  end.

(** The loop [for !p.atEnd()] of [parseProgram]. *)
Fixpoint parseProgram_loop (fuel : nat) (stmts : list (option Statement))
    (p : parser) : option (Program * parser) :=
  match fuel with
  | O => None
  | S fuel' =>
    if atEnd p then Some ({| Statements := stmts |}, p)
    else
      '(stmt, p1) ← parseStatement fuel' p;
      parseProgram_loop fuel' (stmts ++ [stmt]) p1
  end.

Definition parseProgram (fuel : nat) (p : parser) : option (Program * parser) :=
  parseProgram_loop fuel [] p.

End parser.

(** * Properties *)

(** ** Vocabulary *)

Module vocabulary.
Import token lexer parser.

(** Kind of the first token of a stream, as [pTok] reads it. *)
Definition peek_kind (ts : list Token) : TokenType :=
  match ts with
  | t :: _ => Type_ t
  | [] => 0
  end.

(** A token of kind [k] spelled [lit] at line [line], column [col]. *)
Definition tk (k : TokenType) (lit : string) (line col : Z) : Token :=
  {| Type_ := k; Literal := lit; Pos := {| Line := line; Col := col |} |}.

(** Every token of the list is a STRING token: the words of a command. *)
Definition words (ts : list Token) : Prop :=
  Forall (fun t => Type_ t = STRING) ts.

(** The tokens of [x o1 y o2 z]: three commands, each a name and its
    arguments, joined by two operator tokens and followed by [rest]. *)
Definition chain3 (a : Token) (aargs : list Token) (o1 : Token)
    (b : Token) (bargs : list Token) (o2 : Token)
    (c : Token) (cargs : list Token) (rest : list Token) : list Token :=
  a :: aargs ++ o1 :: b :: bargs ++ o2 :: c :: cargs ++ rest.

(** The runes of a string, as [for _, r := range s] yields them; [n]
    bounds their number and the length of the string is enough. *)
Fixpoint runes (n : nat) (s : string) : list Z :=
  match n with
  | O => []
  | S n' =>
    match s with
    | EmptyString => []
    | String _ _ =>
      let rw := utf8.DecodeRuneInString s in
      fst rw
      :: runes n' (String.substring (Z.to_nat (snd rw)) (String.length s) s)
    end
  end.

(** A source that consists only of whitespace: every rune of it is a
    space for [unicode.IsSpace]. *)
Definition whitespace_only (s : string) : Prop :=
  Forall (fun r => unicode.IsSpace r = true) (runes (String.length s) s).

(** Modelled from the spec: the entry point that feeds the parser from the
    lexer is missing from the sources; "source text -> Lexer -> token
    stream -> Parser -> AST", and "tokens are received by the parser in
    exactly the order emitted by the lexer". The parser reads the tokens
    the lexer sent before it closed the stream. *)
Definition front_end (X : externals) (fuel : nat) (source : string)
    : option (ast.Program * parser) :=
  l ← lexer.run X fuel (Lex source true);
  parseProgram fuel (new (Tokens l)).

(** The source "a\nb;": the letter a, a newline, the letter b and a
    semicolon. *)
Definition two_lines : string := gostring.of_bytes [97; 10; 98; 59].

(** The outcome "exactly one syntax error is reported and two
    statements are still returned" of lexing and parsing [source]. *)
Definition one_error_two_statements_of (X : externals) (source : string)
    : Prop :=
  exists fuel prog p',
    front_end X fuel source = Some (prog, p')
    /\ length (errors p') = 1%nat
    /\ exists s1 s2, ast.Statements prog = [Some s1; Some s2].

(** A lexer in statement mode: the source "if[]" after the keyword has
    been sent, as [emit] leaves it. *)
Definition after_if : lexer :=
  {| src := "if[]"; ch := 102; wd := 1; insertSemi := false;
     Tokens := [tk IF "if" 1 1]; closed := false;
     err := true; handled := [];
     offset := 2; rdOffset := 2;
     start := {| Line := 1; Col := 3 |}; prev := {| Line := 1; Col := 2 |};
     pos := {| Line := 1; Col := 3 |};
     ErrCount := 0 |}.

(** Stand-ins for what the sources leave out, for running the state
    functions on ASCII sources: no letter or digit above Latin-1, and
    helpers that scan nothing. *)
Definition plain : externals :=
  {| Letter := fun _ => false; Digit := fun _ => false;
     consumeWord := Some; consumeIdent := Some;
     consumeString := Some; consumeComment := Some |}.

(** Side conditions at concrete tokens: a kind, a list of words, a kind
    that differs, a bound on the fuel. *)
Ltac concrete :=
  first [ reflexivity
        | solve [repeat constructor]
        | vm_compute; lia
        | vm_compute; discriminate ].

(** A kind that differs from another, from the kinds of the tokens at
    hand. *)
Ltac kind_neq :=
  cbn [peek_kind];
  repeat match goal with H : Type_ _ = _ |- _ => rewrite H end;
  solve [assumption | compute; congruence].

End vocabulary.

(** ** The token catalog *)

Section TokenFacts.
Import token.

Lemma tokens_length : Z.of_nat (length tokens) = 64.
Proof. vm_compute. reflexivity. Qed.

(** Checked kind by kind over the whole table. *)
Lemma token_TypeString_table :
  forallb (fun t => String.eqb (tokens_at t) EmptyString
                    || (token (TypeString t) =? t))
          (seqZ 0 64) = true.
Proof. vm_compute. reflexivity. Qed.

Lemma keywords_inserts :
  keywords
  = <["return" := Return]> (<["continue" := Continue]> (<["break" := Break]>
    (<["func" := Func]> (<["obj" := Obj]> (<["let" := Let]>
    (<["else" := Else]> (<["if" := If]> (<["for" := For]> ∅)))))))).
Proof. vm_compute. reflexivity. Qed.

Lemma IsKeywordType_cases t :
  IsKeywordType t = true ->
  t = For \/ t = If \/ t = Else \/ t = Let \/ t = Obj \/ t = Func
  \/ t = Break \/ t = Continue \/ t = Return.
Proof.
  unfold IsKeywordType. intros H. apply andb_prop in H as [H1 H2].
  apply Z.ltb_lt in H1, H2.
  change keywordBeg with 54 in H1. change keywordEnd with 64 in H2.
  assert (t = 55 \/ t = 56 \/ t = 57 \/ t = 58 \/ t = 59 \/ t = 60
          \/ t = 61 \/ t = 62 \/ t = 63) as Hc by lia.
  exact Hc.
Qed.

(** C9: the table maps kinds to spellings and back. For every kind t
    that has a non-empty entry in [tokens], [token (t.String())] is t
    again; [Lookup] returns the kind of every keyword spelling, and
    [Identifier] for every string that is not the spelling of a
    keyword. *)
Theorem kind_spelling_bidirectional :
  (forall t : TokenType,
     0 <= t < Z.of_nat (length tokens) ->
     tokens_at t <> EmptyString ->
     token (TypeString t) = t)
  /\ (forall t : TokenType,
     IsKeywordType t = true -> Lookup (TypeString t) = t)
  /\ (forall s : string,
     (forall t : TokenType, IsKeywordType t = true -> TypeString t <> s) ->
     Lookup s = Identifier).
Proof.
  split; [|split].
  - intros t Ht Hne. rewrite tokens_length in Ht.
    pose proof token_TypeString_table as Hall.
    rewrite forallb_forall in Hall.
    specialize (Hall t).
    assert (Hin : In t (seqZ 0 64))
      by (apply list_elem_of_In, elem_of_seqZ; lia).
    apply Hall in Hin. apply orb_prop in Hin as [He | He].
    + apply String.eqb_eq in He. contradiction.
    + apply Z.eqb_eq in He. exact He.
  - intros t Ht.
    destruct (IsKeywordType_cases t Ht)
      as [-> | [-> | [-> | [-> | [-> | [-> | [-> | [-> | ->]]]]]]]];
      vm_compute; reflexivity.
  - intros s Hs. unfold Lookup. rewrite keywords_inserts.
    assert (Hk : forall t, IsKeywordType t = true -> TypeString t <> s)
      by exact Hs.
    rewrite !lookup_insert_ne.
    + rewrite lookup_empty. reflexivity.
    + apply (Hk For). reflexivity.
    + apply (Hk If). reflexivity.
    + apply (Hk Else). reflexivity.
    + apply (Hk Let). reflexivity.
    + apply (Hk Obj). reflexivity.
    + apply (Hk Func). reflexivity.
    + apply (Hk Break). reflexivity.
    + apply (Hk Continue). reflexivity.
    + apply (Hk Return). reflexivity.
Qed.

Lemma kind_spelling_bidirectional_witness :
  token (TypeString Semicolon) = Semicolon
  /\ Lookup (TypeString Return) = Return
  /\ Lookup "ls" = Identifier.
Proof.
  split; [|split].
  - refine (proj1 kind_spelling_bidirectional Semicolon _ _).
    + split; vm_compute; [discriminate | reflexivity].
    + vm_compute. discriminate.
  - refine (proj1 (proj2 kind_spelling_bidirectional) Return _).
    reflexivity.
  - refine (proj2 (proj2 kind_spelling_bidirectional) "ls" _).
    intros t Ht.
    destruct (IsKeywordType_cases t Ht)
      as [-> | [-> | [-> | [-> | [-> | [-> | [-> | [-> | ->]]]]]]]];
      vm_compute; discriminate.
Defined.

End TokenFacts.

(** ** The lexer *)

Section LexerFacts.
Import token lexer vocabulary.

Lemma get_lt (s : string) :
  forall n, (n < String.length s)%nat -> exists a, String.get n s = Some a.
Proof.
  induction s as [|c s IH]; intros n Hn; simpl in Hn; [lia|].
  destruct n as [|n]; simpl; [eauto|]. apply IH. lia.
Qed.

Lemma get_Some (s : string) :
  forall n a, String.get n s = Some a -> (n < String.length s)%nat.
Proof.
  induction s as [|c s IH]; intros n a H; simpl in H; [discriminate|].
  destruct n as [|n]; simpl; [lia|]. apply IH in H. lia.
Qed.

Lemma substring_nonempty (s : string) :
  forall n m, (n < String.length s)%nat -> (0 < m)%nat ->
    exists c s', String.substring n m s = String c s'.
Proof.
  induction s as [|c s IH]; intros n m Hn Hm; simpl in Hn; [lia|].
  destruct n as [|n]; simpl.
  - destruct m as [|m]; [lia|]. eauto.
  - apply IH; lia.
Qed.

Lemma index_in_range s i :
  0 <= i < gostring.len s -> exists r, gostring.index s i = Some r.
Proof.
  unfold gostring.len, gostring.index. intros H.
  destruct (Z.ltb_spec i 0); [lia|].
  destruct (get_lt s (Z.to_nat i)) as [a Ha]; [lia|].
  rewrite Ha. simpl. eauto.
Qed.

Lemma index_Some s i r :
  gostring.index s i = Some r -> 0 <= i < gostring.len s.
Proof.
  unfold gostring.len, gostring.index.
  destruct (Z.ltb_spec i 0); [discriminate|].
  destruct (String.get (Z.to_nat i) s) as [a|] eqn:Ha; [|discriminate].
  intros _. apply get_Some in Ha. lia.
Qed.

Lemma slice_from_in_range s i :
  0 <= i < gostring.len s ->
  exists c rest, gostring.slice_from s i = Some (String c rest).
Proof.
  unfold gostring.slice_from, gostring.slice, gostring.len. intros H.
  destruct (Z.leb_spec 0 i); [|lia].
  destruct (Z.leb_spec i (Z.of_nat (String.length s))); [|lia].
  destruct (Z.leb_spec (Z.of_nat (String.length s))
                       (Z.of_nat (String.length s))); [|lia].
  simpl.
  destruct (substring_nonempty s (Z.to_nat i)
              (Z.to_nat (Z.of_nat (String.length s) - i))) as (c & rest & E);
    [lia | lia |].
  rewrite E. eauto.
Qed.

(** A rune decoded from a string that is not empty is 1 to 4 bytes
    wide. *)
Lemma DecodeRuneInString_width c s :
  1 <= snd (utf8.DecodeRuneInString (String c s)) <= 4.
Proof.
  unfold utf8.DecodeRuneInString.
  cbn [gostring.bytes list_ascii_of_string fmap list_fmap].
  repeat case_match; simpl; lia.
Qed.

(** [consume] away from the end of the source reads at least one byte,
    sends nothing and leaves the source as it is. *)
Lemma consume_progress l :
  0 <= rdOffset l < gostring.len (src l) ->
  exists l1, consume l = Some l1
    /\ src l1 = src l /\ rdOffset l < rdOffset l1
    /\ Tokens l1 = Tokens l /\ closed l1 = closed l.
Proof.
  intros H. unfold consume, atEnd.
  destruct (Z.leb_spec (gostring.len (src l)) (rdOffset l)); [lia|].
  destruct (index_in_range (src l) (rdOffset l) H) as [r Hr].
  rewrite Hr. cbn [mbind option_bind].
  destruct (r =? 0).
  { eexists. split; [reflexivity|]. simpl. repeat split; lia. }
  destruct (r <? utf8.RuneSelf).
  { eexists. split; [reflexivity|]. simpl. repeat split; lia. }
  destruct (slice_from_in_range (src l) (rdOffset l) H) as (c & rest & E).
  rewrite E. cbn [mbind option_bind].
  pose proof (DecodeRuneInString_width c rest) as Hw.
  destruct (_ && _).
  { eexists. split; [reflexivity|]. simpl. repeat split; lia. }
  destruct (_ && _).
  { eexists. split; [reflexivity|]. simpl. repeat split; lia. }
  eexists. split; [reflexivity|]. simpl. repeat split; lia.
Qed.

(** A loop [for cond(l.peek()) { l.consume() }] ends within the bytes
    left of the source, and sends nothing. *)
Lemma consume_while_total cond :
  cond eof = false ->
  forall n l,
    0 <= rdOffset l ->
    (Z.to_nat (gostring.len (src l) - rdOffset l) < n)%nat ->
    exists l', consume_while n cond l = Some l'
      /\ Tokens l' = Tokens l /\ closed l' = closed l.
Proof.
  intros Heof. induction n as [|n IH]; intros l H0 Hn; [lia|].
  cbn [consume_while]. unfold peek, atEnd.
  destruct (Z.leb_spec (gostring.len (src l)) (rdOffset l)) as [Hend | Hin].
  - cbn [mbind option_bind]. rewrite Heof. eauto.
  - destruct (index_in_range (src l) (rdOffset l)) as [r Hr]; [lia|].
    rewrite Hr. cbn [mbind option_bind].
    destruct (cond r); [|eauto].
    destruct (consume_progress l) as (l1 & Hc & Hs & Hrd & Ht & Hcl); [lia|].
    rewrite Hc. cbn [mbind option_bind].
    destruct (IH l1) as (l' & Hw & Ht' & Hcl'); [lia | rewrite Hs; lia |].
    exists l'. rewrite Hw, Ht', Hcl'. auto.
Qed.

Lemma consumeSpace_total l :
  0 <= rdOffset l ->
  exists l', consumeSpace l = Some l'
    /\ Tokens l' = Tokens l /\ closed l' = closed l.
Proof.
  intros H0. unfold consumeSpace.
  destruct (consume_while_total unicode.IsSpace eq_refl
              (S (String.length (src l))) l) as (l' & Hw & Ht & Hcl);
    [assumption | unfold gostring.len; lia |].
  rewrite Hw. cbn [mbind option_bind].
  exists (ignore l'). simpl. auto.
Qed.

Lemma isAlphabet_not_space r :
  isAlphabet r = true -> unicode.IsSpace r = false.
Proof.
  unfold isAlphabet, unicode.IsSpace, unicode.MaxLatin1. intros H.
  apply orb_prop in H as [H | H]; apply andb_prop in H as [H1 H2];
    apply Z.ltb_lt in H1, H2.
  - destruct (Z.leb_spec 0 r); [|lia]. destruct (Z.leb_spec r 255); [|lia].
    simpl.
    repeat match goal with
           | |- context [r =? ?k] => rewrite (proj2 (Z.eqb_neq r k)) by lia
           end.
    reflexivity.
  - destruct (Z.leb_spec 0 r); [|lia]. destruct (Z.leb_spec r 255); [|lia].
    simpl.
    repeat match goal with
           | |- context [r =? ?k] => rewrite (proj2 (Z.eqb_neq r k)) by lia
           end.
    reflexivity.
Qed.

Lemma DecodeRuneInString_ascii c s :
  gostring.byte c < 0x80 ->
  utf8.DecodeRuneInString (String c s) = (gostring.byte c, 1).
Proof.
  intros H. unfold utf8.DecodeRuneInString.
  cbn [gostring.bytes list_ascii_of_string fmap list_fmap].
  unfold utf8.first. destruct (Z.ltb_spec (gostring.byte c) 128); [|lia].
  reflexivity.
Qed.

(** The first byte of a whitespace-only source is no letter for
    [isAlphabet]. *)
Lemma whitespace_only_first c s :
  whitespace_only (String c s) -> isAlphabet (gostring.byte c) = false.
Proof.
  unfold whitespace_only. cbn [String.length runes]. intros H.
  inversion H as [|r rs Hr _]; subst.
  destruct (isAlphabet (gostring.byte c)) eqn:E; [|reflexivity].
  assert (Hlt : gostring.byte c < 0x80).
  { unfold isAlphabet in E. apply orb_prop in E as [E | E];
      apply andb_prop in E as [_ E]; apply Z.ltb_lt in E; lia. }
  rewrite (DecodeRuneInString_ascii c s Hlt) in Hr. cbn [fst] in Hr.
  rewrite (isAlphabet_not_space _ E) in Hr. discriminate.
Qed.

Lemma states_nil X fuel l : states X fuel None l = Some l.
Proof. destruct fuel; reflexivity. Qed.

(** C2: on a source that consists only of whitespace the lexer sends no
    token at all, not even the end-of-input token, and closes the
    stream: [lexBase] hands over to [lexCmd], which returns nil at
    once. *)
Theorem whitespace_source_emits_no_token :
  forall X s handler fuel,
    whitespace_only s ->
    (2 <= fuel)%nat ->
    exists l, run X fuel (Lex s handler) = Some l
      /\ Tokens l = [] /\ closed l = true.
Proof.
  intros X s handler fuel Hws Hf.
  destruct fuel as [|[|fuel]]; try lia.
  destruct s as [|c s].
  - exists (close (Lex EmptyString handler)). split; [|split; reflexivity].
    unfold run. cbn [states].
    change (call X lexBase (Lex EmptyString handler))
      with (Some (Some lexCmd, Lex EmptyString handler)).
    cbn [mbind option_bind fst snd].
    change (call X lexCmd (Lex EmptyString handler))
      with (Some (@None stateFunc, Lex EmptyString handler)).
    cbn [mbind option_bind fst snd].
    rewrite states_nil. reflexivity.
  - pose proof (whitespace_only_first c s Hws) as Hal.
    unfold run. cbn [states call]. unfold run_lexBase.
    change (peek (Lex (String c s) handler)) with (Some (gostring.byte c)).
    cbn [mbind option_bind]. rewrite Hal.
    destruct (unicode.IsSpace (gostring.byte c)).
    + destruct (consumeSpace_total (Lex (String c s) handler))
        as (l1 & Hc & Ht & Hcl); [simpl; lia|].
      rewrite Hc. cbn [mbind option_bind fst snd].
      change (call X lexCmd l1) with (Some (@None stateFunc, l1)).
      cbn [mbind option_bind fst snd].
      rewrite states_nil. cbn [mbind option_bind].
      eexists. split; [reflexivity|]. simpl. rewrite Ht. auto.
    + cbn [mbind option_bind fst snd].
      change (call X lexCmd (Lex (String c s) handler))
        with (Some (@None stateFunc, Lex (String c s) handler)).
      cbn [mbind option_bind fst snd].
      rewrite states_nil. cbn [mbind option_bind].
      eexists. split; [reflexivity|]. simpl. auto.
Qed.

Lemma whitespace_source_emits_no_token_witness :
  exists l,
    run plain 2 (Lex (gostring.of_bytes [32; 9; 10; 0xC2; 0xA0]) true) = Some l
    /\ Tokens l = [] /\ closed l = true.
Proof.
  refine (whitespace_source_emits_no_token plain
            (gostring.of_bytes [32; 9; 10; 0xC2; 0xA0]) true 2 _ _).
  - unfold whitespace_only. vm_compute. repeat constructor.
  - lia.
Defined.

(** The same on the source made of one space. *)
Example one_space_emits_no_token :
  (fun l => (Tokens l, closed l)) <$> run plain 2 (Lex " " true)
  = Some ([], true).
Proof. vm_compute. reflexivity. Qed.

(** *** The faults [consume] detects *)

Lemma consume_ascii l r :
  gostring.index (src l) (rdOffset l) = Some r ->
  r <> 0 -> r < utf8.RuneSelf ->
  consume l = Some (advance r 1 l).
Proof.
  intros Hr H0 Hlt. pose proof (index_Some _ _ _ Hr) as Hin.
  unfold consume, atEnd.
  destruct (Z.leb_spec (gostring.len (src l)) (rdOffset l)); [lia|].
  rewrite Hr. cbn [mbind option_bind].
  destruct (Z.eqb_spec r 0); [contradiction|].
  destruct (Z.ltb_spec r utf8.RuneSelf); [reflexivity | lia].
Qed.

(** A NUL byte: one error, the handler called with the position of the
    byte, and the byte consumed with width 1. *)
Lemma consume_NUL l :
  gostring.index (src l) (rdOffset l) = Some 0 ->
  consume l = Some (advance 0 1 (error ErrNUL l)).
Proof.
  intros Hr. pose proof (index_Some _ _ _ Hr) as Hin.
  unfold consume, atEnd.
  destruct (Z.leb_spec (gostring.len (src l)) (rdOffset l)); [lia|].
  rewrite Hr. reflexivity.
Qed.

(** An illegal encoding: one error, the handler called, and one byte
    consumed. *)
Lemma consume_illegal_encoding l b rest :
  gostring.index (src l) (rdOffset l) = Some b ->
  utf8.RuneSelf <= b ->
  gostring.slice_from (src l) (rdOffset l) = Some rest ->
  utf8.DecodeRuneInString rest = (utf8.RuneError, 1) ->
  consume l = Some (advance utf8.RuneError 1 (error ErrEnc l)).
Proof.
  intros Hr Hb Hs Hd. pose proof (index_Some _ _ _ Hr) as Hin.
  unfold consume, atEnd.
  destruct (Z.leb_spec (gostring.len (src l)) (rdOffset l)); [lia|].
  rewrite Hr. cbn [mbind option_bind].
  destruct (Z.eqb_spec b 0); [unfold utf8.RuneSelf in Hb; lia|].
  destruct (Z.ltb_spec b utf8.RuneSelf); [lia|].
  rewrite Hs. cbn [mbind option_bind]. rewrite Hd. reflexivity.
Qed.

(** A byte order mark is reported when the token being read starts
    after offset 0, and only then. *)
Lemma consume_bom l b rest :
  gostring.index (src l) (rdOffset l) = Some b ->
  utf8.RuneSelf <= b ->
  gostring.slice_from (src l) (rdOffset l) = Some rest ->
  utf8.DecodeRuneInString rest = (bom, 3) ->
  consume l
  = Some (advance bom 3 (if 0 <? offset l then error ErrBOM l else l)).
Proof.
  intros Hr Hb Hs Hd. pose proof (index_Some _ _ _ Hr) as Hin.
  unfold consume, atEnd.
  destruct (Z.leb_spec (gostring.len (src l)) (rdOffset l)); [lia|].
  rewrite Hr. cbn [mbind option_bind].
  destruct (Z.eqb_spec b 0); [unfold utf8.RuneSelf in Hb; lia|].
  destruct (Z.ltb_spec b utf8.RuneSelf); [lia|].
  rewrite Hs. cbn [mbind option_bind]. rewrite Hd. cbn [fst snd].
  change ((bom =? utf8.RuneError) && (3 =? 1)) with false.
  change (bom =? bom) with true. cbn [andb].
  destruct (0 <? offset l); reflexivity.
Qed.

(** C8: a byte order mark that is not at the very first position goes
    unreported while the first token is still being read. In the source
    made of the letter b and a byte order mark, the mark is at byte
    offset 1; [consume] reads it with width 3 and leaves the error count
    and the calls of the handler as they were. *)
Theorem bom_inside_first_token_is_not_reported :
  exists l1 l2,
    consume (Lex (gostring.of_bytes [98; 0xEF; 0xBB; 0xBF]) true) = Some l1
    /\ rdOffset l1 = 1 /\ offset l1 = 0
    /\ (utf8.DecodeRuneInString <$> gostring.slice_from (src l1) (rdOffset l1))
        = Some (bom, 3)
    /\ consume l1 = Some l2
    /\ ch l2 = bom /\ wd l2 = 3 /\ rdOffset l2 = 4
    /\ ErrCount l2 = ErrCount l1 /\ handled l2 = handled l1.
Proof.
  eexists. eexists.
  split; [vm_compute; reflexivity|].
  split; [reflexivity|]. split; [reflexivity|].
  split; [vm_compute; reflexivity|].
  split; [vm_compute; reflexivity|].
  repeat split; reflexivity.
Qed.

(** *** Brackets in statement mode *)

(** C10: in statement mode the character '[' is sent as a token of the
    kind of the left parenthesis, the kind '(' is sent as, and ']' as a
    token of the right bracket kind, which is another kind. [lexStmt]
    reads the character and hands over to [lexStmtOp], which sends one
    token spelled as the source from the start of the token. *)
Theorem left_bracket_lexes_as_left_paren :
  forall X l c,
    gostring.index (src l) (rdOffset l) = Some c ->
    0 <= offset l <= rdOffset l ->
    c = 91 \/ c = 40 \/ c = 93 ->
    exists l1 l2 lit,
      run_lexStmt X l = Some (Some lexStmtOp, l1)
      /\ run_lexStmtOp l1 = Some (Some lexStmt, l2)
      /\ gostring.slice (src l) (offset l) (rdOffset l + 1) = Some lit
      /\ Tokens l2
         = (Tokens l ++ [{| Type_ := if c =? 93 then RightBrack else LeftParen;
                            Literal := lit; Pos := start l |}])%list
      /\ LeftParen <> RightBrack /\ LeftParen <> LeftBrack.
Proof.
  intros X l c Hc Hoff Hcase.
  pose proof (index_Some _ _ _ Hc) as Hin.
  assert (Hcons : consume l = Some (advance c 1 l)).
  { apply consume_ascii; [assumption | |];
      destruct Hcase as [-> | [-> | ->]]; unfold utf8.RuneSelf; lia. }
  assert (Hlit : gostring.slice (src l) (offset l) (rdOffset l + 1)
                 = Some (String.substring (Z.to_nat (offset l))
                           (Z.to_nat (rdOffset l + 1 - offset l)) (src l))).
  { unfold gostring.slice.
    destruct (Z.leb_spec 0 (offset l)); [|lia].
    destruct (Z.leb_spec (offset l) (rdOffset l + 1)); [|lia].
    destruct (Z.leb_spec (rdOffset l + 1) (gostring.len (src l))); [|lia].
    reflexivity. }
  exists (advance c 1 l).
  exists (ignore (send {| Type_ := if c =? 93 then RightBrack else LeftParen;
                          Literal := String.substring (Z.to_nat (offset l))
                                       (Z.to_nat (rdOffset l + 1 - offset l))
                                       (src l);
                          Pos := start l |} (advance c 1 l))).
  eexists.
  split.
  { unfold run_lexStmt. rewrite Hcons. cbn [mbind option_bind].
    destruct Hcase as [-> | [-> | ->]]; reflexivity. }
  split.
  { unfold run_lexStmtOp, emit, literal.
    cbn [src offset rdOffset advance]. rewrite Hlit. cbn [mbind option_bind].
    destruct Hcase as [-> | [-> | ->]]; reflexivity. }
  split; [exact Hlit|].
  split; [reflexivity|].
  split; compute; congruence.
Qed.

Lemma left_bracket_lexes_as_left_paren_witness :
  exists l1 l2 lit,
    run_lexStmt plain after_if = Some (Some lexStmtOp, l1)
    /\ run_lexStmtOp l1 = Some (Some lexStmt, l2)
    /\ gostring.slice "if[]" 2 3 = Some lit
    /\ Tokens l2
       = [tk IF "if" 1 1;
          {| Type_ := LeftParen; Literal := lit;
             Pos := {| Line := 1; Col := 3 |} |}]
    /\ LeftParen <> RightBrack /\ LeftParen <> LeftBrack.
Proof.
  refine (left_bracket_lexes_as_left_paren plain after_if 91 _ _ _).
  - reflexivity.
  - simpl. lia.
  - left. reflexivity.
Defined.

End LexerFacts.

(** ** The parser: commands *)

Section ParserFacts.
Import token ast parser vocabulary.

Lemma pTok_peek_kind c ts e :
  pTok {| cur := c; stream := ts; errors := e |} = peek_kind ts.
Proof. destruct ts; reflexivity. Qed.

Lemma match_hit k c t ts e :
  Type_ t = k ->
  match_ k {| cur := c; stream := t :: ts; errors := e |}
  = (true, {| cur := t; stream := ts; errors := e |}).
Proof.
  intros H. unfold match_, pTok, next. simpl. rewrite H, Z.eqb_refl.
  reflexivity.
Qed.

Lemma match_miss k c ts e :
  peek_kind ts <> k ->
  match_ k {| cur := c; stream := ts; errors := e |}
  = (false, {| cur := c; stream := ts; errors := e |}).
Proof.
  intros H. unfold match_. rewrite pTok_peek_kind.
  destruct (Z.eqb_spec (peek_kind ts) k); [contradiction | reflexivity].
Qed.

Lemma last_cons (t : Token) args :
  forall c, List.last (t :: args) c = List.last args t.
Proof.
  revert t. induction args as [|u args IH]; intros t c; [reflexivity|].
  change (List.last (t :: u :: args) c) with (List.last (u :: args) c).
  rewrite !IH. reflexivity.
Qed.

(** The argument loop takes every word up to the first token that is not a
    STRING. *)
Lemma parseCmdLit_args_words args :
  forall fuel cmd acc c rest e,
    words args ->
    peek_kind rest <> STRING ->
    (length args < fuel)%nat ->
    parseCmdLit_args fuel cmd acc
      {| cur := c; stream := args ++ rest; errors := e |}
    = Some (LiteralCommand cmd (acc ++ args),
            {| cur := List.last args c; stream := rest; errors := e |}).
Proof.
  induction args as [|t args IH]; intros fuel cmd acc c rest e Hw Hr Hf.
  - destruct fuel as [|fuel]; [simpl in Hf; lia|].
    simpl. rewrite match_miss by assumption. simpl.
    rewrite app_nil_r. reflexivity.
  - destruct fuel as [|fuel]; [simpl in Hf; lia|].
    inversion Hw as [|? ? Ht Hw']; subst.
    cbn [parseCmdLit_args app]. rewrite (match_hit STRING) by assumption.
    cbn [fst snd current cur].
    rewrite IH by (try assumption; simpl in Hf; lia).
    rewrite <- app_assoc, last_cons. reflexivity.
Qed.

(** A command name followed by its arguments is one [LiteralCommand]. *)
Lemma parseCmdLit_words fuel c name args rest e :
  Type_ name = STRING ->
  words args ->
  peek_kind rest <> STRING ->
  (length args < fuel)%nat ->
  parseCmdLit fuel {| cur := c; stream := name :: args ++ rest; errors := e |}
  = Some (LiteralCommand name args,
          {| cur := List.last args name; stream := rest; errors := e |}).
Proof.
  intros Hn Hw Hr Hf. unfold parseCmdLit.
  rewrite (match_hit STRING) by assumption. cbn [fst snd current cur].
  rewrite parseCmdLit_args_words by assumption. reflexivity.
Qed.

(** Without a STRING at the position of the command name, [parseCmdLit]
    reports one error, consumes nothing, and builds the node all the
    same, from the token consumed last. *)
Lemma parseCmdLit_no_word fuel p :
  pTok p <> STRING ->
  parseCmdLit (S fuel) p
  = Some (LiteralCommand (current p) [],
          error ("unexpected toke " ++ TypeString (pTok p)) p).
Proof.
  intros H. destruct p as [c ts e]. rewrite pTok_peek_kind in H.
  unfold parseCmdLit. rewrite match_miss by assumption. cbn [fst snd].
  unfold error at 2 3. cbn [cur stream errors current parseCmdLit_args].
  rewrite match_miss by assumption. reflexivity.
Qed.

Lemma parseCmdPipe_loop_exit fuel expr c ts e :
  peek_kind ts <> OR ->
  parseCmdPipe_loop (S fuel) expr {| cur := c; stream := ts; errors := e |}
  = Some (expr, {| cur := c; stream := ts; errors := e |}).
Proof. intros H. simpl. rewrite match_miss by assumption. reflexivity. Qed.

Lemma parseCmdPipe_loop_word fuel expr c o name args rest e :
  Type_ o = OR ->
  Type_ name = STRING ->
  words args ->
  peek_kind rest <> STRING ->
  (length args < fuel)%nat ->
  parseCmdPipe_loop (S fuel) expr
    {| cur := c; stream := o :: name :: args ++ rest; errors := e |}
  = parseCmdPipe_loop fuel (BinaryCommand expr o (LiteralCommand name args))
      {| cur := List.last args name; stream := rest; errors := e |}.
Proof.
  intros Ho Hn Hw Hr Hf. cbn [parseCmdPipe_loop].
  rewrite (match_hit OR) by assumption. cbn [fst snd current cur].
  rewrite parseCmdLit_words by assumption. reflexivity.
Qed.

Lemma parseCmdPipe_word fuel c name args rest e :
  Type_ name = STRING ->
  words args ->
  peek_kind rest <> STRING ->
  peek_kind rest <> OR ->
  (length args < fuel)%nat ->
  parseCmdPipe fuel {| cur := c; stream := name :: args ++ rest; errors := e |}
  = Some (LiteralCommand name args,
          {| cur := List.last args name; stream := rest; errors := e |}).
Proof.
  intros Hn Hw Hr Ho Hf. unfold parseCmdPipe.
  rewrite parseCmdLit_words by assumption. cbn [mbind option_bind].
  destruct fuel as [|fuel]; [lia|].
  apply parseCmdPipe_loop_exit. assumption.
Qed.

Lemma parseCmdNot_word fuel c name args rest e :
  Type_ name = STRING ->
  words args ->
  peek_kind rest <> STRING ->
  peek_kind rest <> OR ->
  (length args < fuel)%nat ->
  parseCmdNot fuel {| cur := c; stream := name :: args ++ rest; errors := e |}
  = Some (LiteralCommand name args,
          {| cur := List.last args name; stream := rest; errors := e |}).
Proof.
  intros Hn Hw Hr Ho Hf. unfold parseCmdNot.
  rewrite match_miss by kind_neq. cbn [fst snd].
  apply parseCmdPipe_word; assumption.
Qed.

Lemma parseCmdAnd_loop_exit fuel expr c ts e :
  peek_kind ts <> LAND ->
  parseCmdAnd_loop (S fuel) expr {| cur := c; stream := ts; errors := e |}
  = Some (expr, {| cur := c; stream := ts; errors := e |}).
Proof. intros H. simpl. rewrite match_miss by assumption. reflexivity. Qed.

Lemma parseCmdAnd_loop_word fuel expr c o name args rest e :
  Type_ o = LAND ->
  Type_ name = STRING ->
  words args ->
  peek_kind rest <> STRING ->
  peek_kind rest <> OR ->
  (length args < fuel)%nat ->
  parseCmdAnd_loop (S fuel) expr
    {| cur := c; stream := o :: name :: args ++ rest; errors := e |}
  = parseCmdAnd_loop fuel (LogicalCommand expr o (LiteralCommand name args))
      {| cur := List.last args name; stream := rest; errors := e |}.
Proof.
  intros Ho Hn Hw Hr Hp Hf. cbn [parseCmdAnd_loop].
  rewrite (match_hit LAND) by assumption. cbn [fst snd current cur].
  rewrite parseCmdNot_word by assumption. reflexivity.
Qed.

Lemma parseCmdAnd_word fuel c name args rest e :
  Type_ name = STRING ->
  words args ->
  peek_kind rest <> STRING ->
  peek_kind rest <> OR ->
  peek_kind rest <> LAND ->
  (length args < fuel)%nat ->
  parseCmdAnd fuel {| cur := c; stream := name :: args ++ rest; errors := e |}
  = Some (LiteralCommand name args,
          {| cur := List.last args name; stream := rest; errors := e |}).
Proof.
  intros Hn Hw Hr Ho Ha Hf. unfold parseCmdAnd.
  rewrite parseCmdNot_word by assumption. cbn [mbind option_bind].
  destruct fuel as [|fuel]; [lia|].
  apply parseCmdAnd_loop_exit. assumption.
Qed.

Lemma parseCmdLor_loop_exit fuel expr c ts e :
  peek_kind ts <> LOR ->
  parseCmdLor_loop (S fuel) expr {| cur := c; stream := ts; errors := e |}
  = Some (expr, {| cur := c; stream := ts; errors := e |}).
Proof. intros H. simpl. rewrite match_miss by assumption. reflexivity. Qed.

Lemma parseCmdLor_loop_word fuel expr c o name args rest e :
  Type_ o = LOR ->
  Type_ name = STRING ->
  words args ->
  peek_kind rest <> STRING ->
  peek_kind rest <> OR ->
  peek_kind rest <> LAND ->
  (length args < fuel)%nat ->
  parseCmdLor_loop (S fuel) expr
    {| cur := c; stream := o :: name :: args ++ rest; errors := e |}
  = parseCmdLor_loop fuel (LogicalCommand expr o (LiteralCommand name args))
      {| cur := List.last args name; stream := rest; errors := e |}.
Proof.
  intros Ho Hn Hw Hr Hp Ha Hf. cbn [parseCmdLor_loop].
  rewrite (match_hit LOR) by assumption. cbn [fst snd current cur].
  rewrite parseCmdAnd_word by assumption. reflexivity.
Qed.

Lemma parseCmdLor_loop_step fuel expr c o ts e :
  Type_ o = LOR ->
  parseCmdLor_loop (S fuel) expr {| cur := c; stream := o :: ts; errors := e |}
  = '(right_, p1) ← parseCmdAnd fuel {| cur := o; stream := ts; errors := e |};
    parseCmdLor_loop fuel (LogicalCommand expr o right_) p1.
Proof.
  intros Ho. cbn [parseCmdLor_loop].
  rewrite (match_hit LOR) by assumption. reflexivity.
Qed.

Lemma chain3_length a aargs o1 b bargs o2 c cargs rest :
  length (chain3 a aargs o1 b bargs o2 c cargs rest)
  = (length aargs + length bargs + length cargs + length rest + 5)%nat.
Proof.
  unfold chain3.
  repeat (rewrite ?length_cons, ?length_app).
  lia.
Qed.

(** C5: the operators [|], [&&] and [||] fold to the left. For all
    commands a, b, c (a name and arguments each), the tokens of
    [a | b | c] parse as
    [BinaryCommand (BinaryCommand a b) c], and the tokens of
    [a && b && c] and of [a || b || c] as
    [LogicalCommand (LogicalCommand a b) c]; all tokens up to [rest]
    are consumed and no error is reported. *)
Theorem composition_folds_left :
  forall fuel cur0 e a aargs o1 b bargs o2 c cargs rest,
    Type_ a = STRING -> words aargs ->
    Type_ b = STRING -> words bargs ->
    Type_ c = STRING -> words cargs ->
    peek_kind rest <> STRING -> peek_kind rest <> OR ->
    peek_kind rest <> LAND -> peek_kind rest <> LOR ->
    (length (chain3 a aargs o1 b bargs o2 c cargs rest) < fuel)%nat ->
    (Type_ o1 = OR -> Type_ o2 = OR ->
     parseCommand fuel
       {| cur := cur0; stream := chain3 a aargs o1 b bargs o2 c cargs rest;
          errors := e |}
     = Some (BinaryCommand
               (BinaryCommand (LiteralCommand a aargs) o1
                              (LiteralCommand b bargs))
               o2 (LiteralCommand c cargs),
             {| cur := List.last cargs c; stream := rest; errors := e |}))
    /\ (Type_ o1 = LAND -> Type_ o2 = LAND ->
     parseCommand fuel
       {| cur := cur0; stream := chain3 a aargs o1 b bargs o2 c cargs rest;
          errors := e |}
     = Some (LogicalCommand
               (LogicalCommand (LiteralCommand a aargs) o1
                               (LiteralCommand b bargs))
               o2 (LiteralCommand c cargs),
             {| cur := List.last cargs c; stream := rest; errors := e |}))
    /\ (Type_ o1 = LOR -> Type_ o2 = LOR ->
     parseCommand fuel
       {| cur := cur0; stream := chain3 a aargs o1 b bargs o2 c cargs rest;
          errors := e |}
     = Some (LogicalCommand
               (LogicalCommand (LiteralCommand a aargs) o1
                               (LiteralCommand b bargs))
               o2 (LiteralCommand c cargs),
             {| cur := List.last cargs c; stream := rest; errors := e |})).
Proof.
  intros fuel cur0 e a aargs o1 b bargs o2 c cargs rest
         Ha Haa Hb Hba Hc Hca Hr1 Hr2 Hr3 Hr4 Hf.
  rewrite chain3_length in Hf. unfold chain3, parseCommand.
  destruct fuel as [|[|[|fuel]]]; try lia.
  repeat split; intros Ho1 Ho2.
  - unfold parseCmdLor, parseCmdAnd, parseCmdNot.
    rewrite match_miss by kind_neq. cbn [fst snd].
    unfold parseCmdPipe.
    rewrite parseCmdLit_words by (try assumption; try kind_neq; lia).
    cbn [mbind option_bind].
    rewrite parseCmdPipe_loop_word by (try assumption; try kind_neq; lia).
    rewrite parseCmdPipe_loop_word by (try assumption; try kind_neq; lia).
    rewrite parseCmdPipe_loop_exit by assumption.
    cbn [mbind option_bind].
    rewrite parseCmdAnd_loop_exit by assumption.
    cbn [mbind option_bind].
    apply parseCmdLor_loop_exit. assumption.
  - unfold parseCmdLor, parseCmdAnd.
    rewrite parseCmdNot_word by (try assumption; try kind_neq; lia).
    cbn [mbind option_bind].
    rewrite parseCmdAnd_loop_word by (try assumption; try kind_neq; lia).
    rewrite parseCmdAnd_loop_word by (try assumption; try kind_neq; lia).
    rewrite parseCmdAnd_loop_exit by assumption.
    cbn [mbind option_bind].
    apply parseCmdLor_loop_exit. assumption.
  - unfold parseCmdLor.
    rewrite parseCmdAnd_word by (try assumption; try kind_neq; lia).
    cbn [mbind option_bind].
    rewrite parseCmdLor_loop_word by (try assumption; try kind_neq; lia).
    rewrite parseCmdLor_loop_word by (try assumption; try kind_neq; lia).
    apply parseCmdLor_loop_exit. assumption.
Qed.

Lemma composition_folds_left_witness :
  parseCommand 9
    (new [tk STRING "ls" 1 1; tk STRING "-l" 1 4; tk OR "|" 1 7;
          tk STRING "b" 1 9; tk OR "|" 1 11; tk STRING "c" 1 13;
          tk SEMICOLON ";" 1 14])
  = Some (BinaryCommand
            (BinaryCommand
               (LiteralCommand (tk STRING "ls" 1 1) [tk STRING "-l" 1 4])
               (tk OR "|" 1 7) (LiteralCommand (tk STRING "b" 1 9) []))
            (tk OR "|" 1 11) (LiteralCommand (tk STRING "c" 1 13) []),
          {| cur := tk STRING "c" 1 13; stream := [tk SEMICOLON ";" 1 14];
             errors := [] |})
  /\ parseCommand 9
    (new [tk STRING "ls" 1 1; tk STRING "-l" 1 4; tk LAND "&&" 1 7;
          tk STRING "b" 1 10; tk LAND "&&" 1 12; tk STRING "c" 1 15;
          tk SEMICOLON ";" 1 16])
  = Some (LogicalCommand
            (LogicalCommand
               (LiteralCommand (tk STRING "ls" 1 1) [tk STRING "-l" 1 4])
               (tk LAND "&&" 1 7) (LiteralCommand (tk STRING "b" 1 10) []))
            (tk LAND "&&" 1 12) (LiteralCommand (tk STRING "c" 1 15) []),
          {| cur := tk STRING "c" 1 15; stream := [tk SEMICOLON ";" 1 16];
             errors := [] |})
  /\ parseCommand 9
    (new [tk STRING "ls" 1 1; tk STRING "-l" 1 4; tk LOR "||" 1 7;
          tk STRING "b" 1 10; tk LOR "||" 1 12; tk STRING "c" 1 15;
          tk SEMICOLON ";" 1 16])
  = Some (LogicalCommand
            (LogicalCommand
               (LiteralCommand (tk STRING "ls" 1 1) [tk STRING "-l" 1 4])
               (tk LOR "||" 1 7) (LiteralCommand (tk STRING "b" 1 10) []))
            (tk LOR "||" 1 12) (LiteralCommand (tk STRING "c" 1 15) []),
          {| cur := tk STRING "c" 1 15; stream := [tk SEMICOLON ";" 1 16];
             errors := [] |}).
Proof.
  split; [|split].
  - refine (proj1 (composition_folds_left 9 zeroToken []
                     (tk STRING "ls" 1 1) [tk STRING "-l" 1 4] (tk OR "|" 1 7)
                     (tk STRING "b" 1 9) [] (tk OR "|" 1 11)
                     (tk STRING "c" 1 13) [] [tk SEMICOLON ";" 1 14]
                     _ _ _ _ _ _ _ _ _ _ _) _ _); concrete.
  - refine (proj1 (proj2 (composition_folds_left 9 zeroToken []
                     (tk STRING "ls" 1 1) [tk STRING "-l" 1 4] (tk LAND "&&" 1 7)
                     (tk STRING "b" 1 10) [] (tk LAND "&&" 1 12)
                     (tk STRING "c" 1 15) [] [tk SEMICOLON ";" 1 16]
                     _ _ _ _ _ _ _ _ _ _ _)) _ _); concrete.
  - refine (proj2 (proj2 (composition_folds_left 9 zeroToken []
                     (tk STRING "ls" 1 1) [tk STRING "-l" 1 4] (tk LOR "||" 1 7)
                     (tk STRING "b" 1 10) [] (tk LOR "||" 1 12)
                     (tk STRING "c" 1 15) [] [tk SEMICOLON ";" 1 16]
                     _ _ _ _ _ _ _ _ _ _ _)) _ _); concrete.
Defined.

(** C6: [&&] binds tighter than [||]. For all commands a, b, c the
    tokens of [a || b && c] parse as
    [LogicalCommand a "||" (LogicalCommand b "&&" c)]. *)
Theorem land_binds_tighter_than_lor :
  forall fuel cur0 e a aargs o1 b bargs o2 c cargs rest,
    Type_ a = STRING -> words aargs ->
    Type_ b = STRING -> words bargs ->
    Type_ c = STRING -> words cargs ->
    Type_ o1 = LOR -> Type_ o2 = LAND ->
    peek_kind rest <> STRING -> peek_kind rest <> OR ->
    peek_kind rest <> LAND -> peek_kind rest <> LOR ->
    (length (chain3 a aargs o1 b bargs o2 c cargs rest) < fuel)%nat ->
    parseCommand fuel
      {| cur := cur0; stream := chain3 a aargs o1 b bargs o2 c cargs rest;
         errors := e |}
    = Some (LogicalCommand (LiteralCommand a aargs) o1
              (LogicalCommand (LiteralCommand b bargs) o2
                              (LiteralCommand c cargs)),
            {| cur := List.last cargs c; stream := rest; errors := e |}).
Proof.
  intros fuel cur0 e a aargs o1 b bargs o2 c cargs rest
         Ha Haa Hb Hba Hc Hca Ho1 Ho2 Hr1 Hr2 Hr3 Hr4 Hf.
  rewrite chain3_length in Hf. unfold chain3, parseCommand.
  destruct fuel as [|[|[|fuel]]]; try lia.
  unfold parseCmdLor.
  rewrite parseCmdAnd_word by (try assumption; try kind_neq; lia).
  cbn [mbind option_bind].
  rewrite parseCmdLor_loop_step by assumption.
  unfold parseCmdAnd.
  rewrite parseCmdNot_word by (try assumption; try kind_neq; lia).
  cbn [mbind option_bind].
  rewrite parseCmdAnd_loop_word by (try assumption; try kind_neq; lia).
  rewrite parseCmdAnd_loop_exit by assumption.
  cbn [mbind option_bind].
  apply parseCmdLor_loop_exit. assumption.
Qed.

Lemma land_binds_tighter_than_lor_witness :
  parseCommand 9
    (new [tk STRING "a" 1 1; tk LOR "||" 1 3; tk STRING "b" 1 6;
          tk STRING "x" 1 8; tk LAND "&&" 1 10; tk STRING "c" 1 13;
          tk SEMICOLON ";" 1 14])
  = Some (LogicalCommand (LiteralCommand (tk STRING "a" 1 1) [])
            (tk LOR "||" 1 3)
            (LogicalCommand
               (LiteralCommand (tk STRING "b" 1 6) [tk STRING "x" 1 8])
               (tk LAND "&&" 1 10)
               (LiteralCommand (tk STRING "c" 1 13) [])),
          {| cur := tk STRING "c" 1 13; stream := [tk SEMICOLON ";" 1 14];
             errors := [] |}).
Proof.
  refine (land_binds_tighter_than_lor 9 zeroToken []
            (tk STRING "a" 1 1) [] (tk LOR "||" 1 3)
            (tk STRING "b" 1 6) [tk STRING "x" 1 8] (tk LAND "&&" 1 10)
            (tk STRING "c" 1 13) [] [tk SEMICOLON ";" 1 14]
            _ _ _ _ _ _ _ _ _ _ _ _ _); concrete.
Defined.

(** C7: negation wraps the whole pipe. For all commands a, b the tokens
    of [! a | b] parse as [UnaryCommand (BinaryCommand a b)], and so not
    as a [BinaryCommand] with a negation on its left. *)
Theorem not_wraps_the_pipe :
  forall fuel cur0 e n a aargs o b bargs rest,
    Type_ n = NOT ->
    Type_ a = STRING -> words aargs ->
    Type_ o = OR ->
    Type_ b = STRING -> words bargs ->
    peek_kind rest <> STRING -> peek_kind rest <> OR ->
    peek_kind rest <> LAND -> peek_kind rest <> LOR ->
    (length (n :: a :: aargs ++ o :: b :: bargs ++ rest) < fuel)%nat ->
    parseCommand fuel
      {| cur := cur0; stream := n :: a :: aargs ++ o :: b :: bargs ++ rest;
         errors := e |}
    = Some (UnaryCommand n
              (BinaryCommand (LiteralCommand a aargs) o
                             (LiteralCommand b bargs)),
            {| cur := List.last bargs b; stream := rest; errors := e |})
    /\ forall n' x o' y p',
      parseCommand fuel
        {| cur := cur0; stream := n :: a :: aargs ++ o :: b :: bargs ++ rest;
           errors := e |}
      <> Some (BinaryCommand (UnaryCommand n' x) o' y, p').
Proof.
  intros fuel cur0 e n a aargs o b bargs rest
         Hn Ha Haa Ho Hb Hba Hr1 Hr2 Hr3 Hr4 Hf.
  assert (Hparse :
    parseCommand fuel
      {| cur := cur0; stream := n :: a :: aargs ++ o :: b :: bargs ++ rest;
         errors := e |}
    = Some (UnaryCommand n
              (BinaryCommand (LiteralCommand a aargs) o
                             (LiteralCommand b bargs)),
            {| cur := List.last bargs b; stream := rest; errors := e |})).
  { repeat (rewrite ?length_cons, ?length_app in Hf).
    destruct fuel as [|[|[|fuel]]]; try lia.
    unfold parseCommand, parseCmdLor, parseCmdAnd, parseCmdNot.
    rewrite (match_hit NOT) by assumption. cbn [fst snd current cur].
    unfold parseCmdPipe.
    rewrite parseCmdLit_words by (try assumption; try kind_neq; lia).
    cbn [mbind option_bind].
    rewrite parseCmdPipe_loop_word by (try assumption; try kind_neq; lia).
    rewrite parseCmdPipe_loop_exit by assumption.
    cbn [mbind option_bind].
    rewrite parseCmdAnd_loop_exit by assumption.
    cbn [mbind option_bind].
    apply parseCmdLor_loop_exit. assumption. }
  split; [exact Hparse|].
  intros n' x o' y p'. rewrite Hparse. discriminate.
Qed.

Lemma not_wraps_the_pipe_witness :
  parseCommand 9
    (new [tk NOT "!" 1 1; tk STRING "a" 1 3; tk OR "|" 1 5;
          tk STRING "b" 1 7; tk SEMICOLON ";" 1 8])
  = Some (UnaryCommand (tk NOT "!" 1 1)
            (BinaryCommand (LiteralCommand (tk STRING "a" 1 3) [])
               (tk OR "|" 1 5) (LiteralCommand (tk STRING "b" 1 7) [])),
          {| cur := tk STRING "b" 1 7; stream := [tk SEMICOLON ";" 1 8];
             errors := [] |}).
Proof.
  refine (proj1 (not_wraps_the_pipe 9 zeroToken []
                   (tk NOT "!" 1 1) (tk STRING "a" 1 3) [] (tk OR "|" 1 5)
                   (tk STRING "b" 1 7) [] [tk SEMICOLON ";" 1 8]
                   _ _ _ _ _ _ _ _ _ _ _)); concrete.
Defined.

(** ** The parser: fuel *)

(** Fuel only bounds the work: a result obtained with some fuel is the
    result with any larger amount. *)
Lemma parseCmdLit_args_mono n :
  forall m cmd args p r,
    (n <= m)%nat ->
    parseCmdLit_args n cmd args p = Some r ->
    parseCmdLit_args m cmd args p = Some r.
Proof.
  induction n as [|n IH]; intros m cmd args p r Hle H; [discriminate|].
  destruct m as [|m]; [lia|]. cbn [parseCmdLit_args] in *.
  destruct (fst (match_ STRING p)); [|exact H].
  apply IH; [lia | exact H].
Qed.

Lemma parseCmdLit_mono n m p r :
  (n <= m)%nat -> parseCmdLit n p = Some r -> parseCmdLit m p = Some r.
Proof. unfold parseCmdLit. apply parseCmdLit_args_mono. Qed.

Lemma parseCmdPipe_loop_mono n :
  forall m expr p r,
    (n <= m)%nat ->
    parseCmdPipe_loop n expr p = Some r ->
    parseCmdPipe_loop m expr p = Some r.
Proof.
  induction n as [|n IH]; intros m expr p r Hle H; [discriminate|].
  destruct m as [|m]; [lia|]. cbn [parseCmdPipe_loop] in *.
  destruct (fst (match_ OR p)); [|exact H].
  destruct (parseCmdLit n (snd (match_ OR p))) as [[x p1]|] eqn:E;
    [|discriminate].
  rewrite (parseCmdLit_mono n m _ _ ltac:(lia) E).
  cbn [mbind option_bind] in *. apply IH; [lia | exact H].
Qed.

Lemma parseCmdPipe_mono n m p r :
  (n <= m)%nat -> parseCmdPipe n p = Some r -> parseCmdPipe m p = Some r.
Proof.
  intros Hle H. unfold parseCmdPipe in *.
  destruct (parseCmdLit n p) as [[x p1]|] eqn:E; [|discriminate].
  rewrite (parseCmdLit_mono n m _ _ Hle E).
  cbn [mbind option_bind] in *.
  apply (parseCmdPipe_loop_mono n); assumption.
Qed.

Lemma parseCmdNot_mono n m p r :
  (n <= m)%nat -> parseCmdNot n p = Some r -> parseCmdNot m p = Some r.
Proof.
  intros Hle H. unfold parseCmdNot in *.
  destruct (fst (match_ NOT p)).
  - destruct (parseCmdPipe n (snd (match_ NOT p))) as [[x p1]|] eqn:E;
      [|discriminate].
    rewrite (parseCmdPipe_mono n m _ _ Hle E). exact H.
  - apply (parseCmdPipe_mono n); assumption.
Qed.

Lemma parseCmdAnd_loop_mono n :
  forall m expr p r,
    (n <= m)%nat ->
    parseCmdAnd_loop n expr p = Some r ->
    parseCmdAnd_loop m expr p = Some r.
Proof.
  induction n as [|n IH]; intros m expr p r Hle H; [discriminate|].
  destruct m as [|m]; [lia|]. cbn [parseCmdAnd_loop] in *.
  destruct (fst (match_ LAND p)); [|exact H].
  destruct (parseCmdNot n (snd (match_ LAND p))) as [[x p1]|] eqn:E;
    [|discriminate].
  rewrite (parseCmdNot_mono n m _ _ ltac:(lia) E).
  cbn [mbind option_bind] in *. apply IH; [lia | exact H].
Qed.

Lemma parseCmdAnd_mono n m p r :
  (n <= m)%nat -> parseCmdAnd n p = Some r -> parseCmdAnd m p = Some r.
Proof.
  intros Hle H. unfold parseCmdAnd in *.
  destruct (parseCmdNot n p) as [[x p1]|] eqn:E; [|discriminate].
  rewrite (parseCmdNot_mono n m _ _ Hle E).
  cbn [mbind option_bind] in *.
  apply (parseCmdAnd_loop_mono n); assumption.
Qed.

Lemma parseCmdLor_loop_mono n :
  forall m expr p r,
    (n <= m)%nat ->
    parseCmdLor_loop n expr p = Some r ->
    parseCmdLor_loop m expr p = Some r.
Proof.
  induction n as [|n IH]; intros m expr p r Hle H; [discriminate|].
  destruct m as [|m]; [lia|]. cbn [parseCmdLor_loop] in *.
  destruct (fst (match_ LOR p)); [|exact H].
  destruct (parseCmdAnd n (snd (match_ LOR p))) as [[x p1]|] eqn:E;
    [|discriminate].
  rewrite (parseCmdAnd_mono n m _ _ ltac:(lia) E).
  cbn [mbind option_bind] in *. apply IH; [lia | exact H].
Qed.

Lemma parseCmdStmt_mono n m p r :
  (n <= m)%nat -> parseCmdStmt n p = Some r -> parseCmdStmt m p = Some r.
Proof.
  intros Hle H. unfold parseCmdStmt, parseCommand, parseCmdLor in *.
  destruct (parseCmdAnd n p) as [[x p1]|] eqn:E; [|discriminate].
  rewrite (parseCmdAnd_mono n m _ _ Hle E).
  cbn [mbind option_bind] in *.
  destruct (parseCmdLor_loop n x p1) as [[y p2]|] eqn:E2; [|discriminate].
  rewrite (parseCmdLor_loop_mono n m _ _ _ Hle E2). exact H.
Qed.

Lemma parseStatement_mono n :
  forall m,
    (n <= m)%nat ->
    (forall p r, parseStatement n p = Some r -> parseStatement m p = Some r)
    /\ (forall p r, parseBlockStmt n p = Some r -> parseBlockStmt m p = Some r)
    /\ (forall stmts p r,
          parseBlockStmt_loop n stmts p = Some r ->
          parseBlockStmt_loop m stmts p = Some r).
Proof.
  induction n as [|n IH]; intros m Hle.
  { repeat split; intros; discriminate. }
  destruct m as [|m]; [lia|].
  destruct (IH m ltac:(lia)) as (IHs & IHb & IHl).
  split; [|split].
  - intros p r H. cbn [parseStatement] in *.
    destruct (pTok p =? LBRACE).
    { destruct (parseBlockStmt n p) as [[x p1]|] eqn:E; [|discriminate].
      rewrite (IHb _ _ E). exact H. }
    destruct (pTok p =? LET); [exact H|].
    destruct (pTok p =? IF); [exact H|].
    destruct (pTok p =? FOR); [exact H|].
    destruct ((pTok p =? STRING) || (pTok p =? NOT)); [|exact H].
    destruct (parseCmdStmt n p) as [[x p1]|] eqn:E; [|discriminate].
    rewrite (parseCmdStmt_mono n m _ _ ltac:(lia) E). exact H.
  - intros p r H. cbn [parseBlockStmt] in *.
    destruct (parseBlockStmt_loop n [] (next p)) as [[x p1]|] eqn:E;
      [|discriminate].
    rewrite (IHl _ _ _ E). exact H.
  - intros stmts p r H. cbn [parseBlockStmt_loop] in *.
    destruct (tok p =? RBRACE); [exact H|].
    destruct (parseStatement n p) as [[x p1]|] eqn:E; [|discriminate].
    rewrite (IHs _ _ E). cbn [mbind option_bind] in *.
    apply IHl. exact H.
Qed.

Lemma parseProgram_loop_mono n :
  forall m stmts p r,
    (n <= m)%nat ->
    parseProgram_loop n stmts p = Some r ->
    parseProgram_loop m stmts p = Some r.
Proof.
  induction n as [|n IH]; intros m stmts p r Hle H; [discriminate|].
  destruct m as [|m]; [lia|]. cbn [parseProgram_loop] in *.
  destruct (atEnd p); [exact H|].
  destruct (parseStatement n p) as [[x p1]|] eqn:E; [|discriminate].
  rewrite (proj1 (parseStatement_mono n m ltac:(lia)) _ _ E).
  cbn [mbind option_bind] in *. apply IH; [lia | exact H].
Qed.

Lemma parseProgram_mono n m p r :
  (n <= m)%nat -> parseProgram n p = Some r -> parseProgram m p = Some r.
Proof. apply parseProgram_loop_mono. Qed.

(** ** The parser: statements *)

(** The three keyword cases of [parseStatement] consume nothing: the
    terminator check fails on the keyword itself, reports an error, and
    the parser is left where it was. *)
Lemma parseStatement_stub fuel p :
  pTok p = LET \/ pTok p = IF \/ pTok p = FOR ->
  parseStatement (S fuel) p
  = Some (None,
          error ("unexpected token " ++ TypeString (pTok p)
                 ++ ", expected " ++ TypeString SEMICOLON) p).
Proof.
  intros H. cbn [parseStatement]. unfold terminator, match_.
  assert (E1 : (pTok p =? LBRACE) = false)
    by (destruct H as [H | [H | H]]; rewrite H; reflexivity).
  assert (E2 : (pTok p =? SEMICOLON) = false)
    by (destruct H as [H | [H | H]]; rewrite H; reflexivity).
  rewrite E1, E2.
  destruct H as [H | [H | H]].
  - assert (E3 : (pTok p =? LET) = true) by (rewrite H; reflexivity).
    rewrite E3. reflexivity.
  - assert (E3 : (pTok p =? LET) = false) by (rewrite H; reflexivity).
    assert (E4 : (pTok p =? IF) = true) by (rewrite H; reflexivity).
    rewrite E3, E4. reflexivity.
  - assert (E3 : (pTok p =? LET) = false) by (rewrite H; reflexivity).
    assert (E4 : (pTok p =? IF) = false) by (rewrite H; reflexivity).
    assert (E5 : (pTok p =? FOR) = true) by (rewrite H; reflexivity).
    rewrite E3, E4, E5. reflexivity.
Qed.

Lemma parseProgram_loop_stub fuel :
  forall stmts p,
    pTok p = LET \/ pTok p = IF \/ pTok p = FOR ->
    parseProgram_loop fuel stmts p = None.
Proof.
  induction fuel as [|fuel IH]; intros stmts p H; [reflexivity|].
  cbn [parseProgram_loop].
  assert (Hend : atEnd p = false).
  { destruct p as [c [|t ts] e]; [|reflexivity].
    destruct H as [H | [H | H]]; compute in H; congruence. }
  rewrite Hend.
  destruct fuel as [|fuel]; [reflexivity|].
  rewrite parseStatement_stub by assumption. cbn [mbind option_bind].
  apply IH. destruct p as [c ts e]. exact H.
Qed.

(** A token that can begin no statement is reported and skipped: one
    error, one token consumed, no statement. *)
Lemma parseStatement_illegal fuel c t ts e :
  Type_ t <> LBRACE -> Type_ t <> LET -> Type_ t <> IF -> Type_ t <> FOR ->
  Type_ t <> STRING -> Type_ t <> NOT ->
  parseStatement (S fuel) {| cur := c; stream := t :: ts; errors := e |}
  = Some (None,
          {| cur := t; stream := ts;
             errors := e ++ ["illegal token " ++ TypeString (Type_ t)
                             ++ " at line start"] |}).
Proof.
  intros H1 H2 H3 H4 H5 H6. cbn [parseStatement].
  rewrite pTok_peek_kind. cbn [peek_kind].
  apply Z.eqb_neq in H1, H2, H3, H4, H5, H6.
  rewrite H1, H2, H3, H4, H5, H6. reflexivity.
Qed.

(** A command statement made of a name and its arguments. *)
Lemma parseCmdStmt_word fuel c name args rest e :
  Type_ name = STRING ->
  words args ->
  peek_kind rest <> STRING -> peek_kind rest <> OR ->
  peek_kind rest <> LAND -> peek_kind rest <> LOR ->
  (length args < fuel)%nat ->
  parseCmdStmt fuel {| cur := c; stream := name :: args ++ rest; errors := e |}
  = Some (CmdStatement (LiteralCommand name args),
          {| cur := List.last args name; stream := rest; errors := e |}).
Proof.
  intros Hn Hw H1 H2 H3 H4 Hf.
  unfold parseCmdStmt, parseCommand, parseCmdLor.
  rewrite parseCmdAnd_word by assumption. cbn [mbind option_bind].
  destruct fuel as [|fuel]; [lia|].
  rewrite parseCmdLor_loop_exit by assumption. reflexivity.
Qed.

Lemma parseStatement_command fuel p :
  pTok p = STRING \/ pTok p = NOT ->
  parseStatement (S fuel) p
  = '(stmt, p1) ← parseCmdStmt fuel p; Some (terminator (Some stmt) p1).
Proof.
  intros H. cbn [parseStatement].
  assert (E1 : (pTok p =? LBRACE) = false)
    by (destruct H as [H | H]; rewrite H; reflexivity).
  assert (E2 : (pTok p =? LET) = false)
    by (destruct H as [H | H]; rewrite H; reflexivity).
  assert (E3 : (pTok p =? IF) = false)
    by (destruct H as [H | H]; rewrite H; reflexivity).
  assert (E4 : (pTok p =? FOR) = false)
    by (destruct H as [H | H]; rewrite H; reflexivity).
  assert (E5 : (pTok p =? STRING) || (pTok p =? NOT) = true)
    by (destruct H as [H | H]; rewrite H; reflexivity).
  rewrite E1, E2, E3, E4, E5. reflexivity.
Qed.

Lemma terminator_hit stmt c t ts e :
  Type_ t = SEMICOLON ->
  terminator stmt {| cur := c; stream := t :: ts; errors := e |}
  = (stmt, {| cur := t; stream := ts; errors := e |}).
Proof.
  intros H. unfold terminator.
  rewrite (match_hit SEMICOLON) by assumption. reflexivity.
Qed.

Lemma terminator_miss stmt c ts e :
  peek_kind ts <> SEMICOLON ->
  terminator stmt {| cur := c; stream := ts; errors := e |}
  = (stmt,
     {| cur := c; stream := ts;
        errors := e ++ ["unexpected token " ++ TypeString (peek_kind ts)
                        ++ ", expected " ++ TypeString SEMICOLON] |}).
Proof.
  intros H. unfold terminator. rewrite match_miss by assumption.
  cbn [fst snd]. rewrite pTok_peek_kind. reflexivity.
Qed.

(** C1: parsing does not terminate on every finite token stream. On a
    stream that begins with the keyword [let], [if] or [for] the loop of
    [parseProgram] never ends, whatever follows the keyword: no amount
    of fuel yields a program. *)
Theorem parseProgram_diverges_on_let_if_for :
  forall fuel lit pos rest,
    parseProgram fuel
      (new ({| Type_ := LET; Literal := lit; Pos := pos |} :: rest)) = None
    /\ parseProgram fuel
      (new ({| Type_ := IF; Literal := lit; Pos := pos |} :: rest)) = None
    /\ parseProgram fuel
      (new ({| Type_ := FOR; Literal := lit; Pos := pos |} :: rest)) = None.
Proof.
  intros fuel lit pos rest. unfold parseProgram.
  repeat split; apply parseProgram_loop_stub; auto.
Qed.

(** C3: a command literal without a name is reported but built all the
    same. On the tokens of [a | ;] the position after the pipe holds no
    STRING: [parseCmdLit] reports the error and returns a
    [LiteralCommand] whose [Cmd] is the pipe token itself, which becomes
    the right side of the [BinaryCommand]. *)
Theorem parseCmdLit_builds_command_without_name :
  parseProgram 8 (new [tk STRING "a" 1 1; tk OR "|" 1 3; tk SEMICOLON ";" 1 5])
  = Some ({| Statements :=
               [Some (CmdStatement
                        (BinaryCommand
                           (LiteralCommand (tk STRING "a" 1 1) [])
                           (tk OR "|" 1 3)
                           (LiteralCommand (tk OR "|" 1 3) [])))] |},
          {| cur := tk SEMICOLON ";" 1 5; stream := [];
             errors := ["unexpected toke ;"] |}).
Proof. vm_compute. reflexivity. Qed.

(** *** Commands always end *)

Lemma match_miss_same k p :
  fst (match_ k p) = false -> snd (match_ k p) = p.
Proof. unfold match_. destruct (pTok p =? k); [discriminate | reflexivity]. Qed.

(** A match on a kind other than the zero kind takes one token off the
    stream. *)
Lemma match_consumes k p :
  k <> 0 ->
  fst (match_ k p) = true ->
  S (length (stream (snd (match_ k p)))) = length (stream p).
Proof.
  intros Hk. unfold match_.
  destruct (Z.eqb_spec (pTok p) k) as [E | _]; [|discriminate].
  intros _. destruct p as [c [|t ts] e]; [|reflexivity].
  exfalso. apply Hk. symmetry. exact E.
Qed.

Lemma parseCmdLit_args_total fuel :
  forall cmd args p,
    (length (stream p) < fuel)%nat ->
    exists c p', parseCmdLit_args fuel cmd args p = Some (c, p')
      /\ (length (stream p') <= length (stream p))%nat.
Proof.
  induction fuel as [|fuel IH]; intros cmd args p Hf; [lia|].
  cbn [parseCmdLit_args].
  destruct (fst (match_ STRING p)) eqn:E.
  - pose proof (match_consumes STRING p ltac:(compute; congruence) E) as Hc.
    destruct (IH cmd (args ++ [current (snd (match_ STRING p))])%list
                (snd (match_ STRING p)) ltac:(lia)) as (c & p' & H & Hl).
    exists c, p'. split; [exact H | lia].
  - rewrite (match_miss_same _ _ E). eexists. eexists.
    split; [reflexivity | lia].
Qed.

Lemma parseCmdLit_total fuel p :
  (length (stream p) < fuel)%nat ->
  exists c p', parseCmdLit fuel p = Some (c, p')
    /\ (length (stream p') <= length (stream p))%nat.
Proof.
  intros Hf. unfold parseCmdLit.
  destruct (fst (match_ STRING p)) eqn:E.
  - pose proof (match_consumes STRING p ltac:(compute; congruence) E) as Hc.
    destruct (parseCmdLit_args_total fuel
                (current (snd (match_ STRING p))) []
                (snd (match_ STRING p)) ltac:(lia)) as (c & p' & H & Hl).
    exists c, p'. split; [exact H | lia].
  - rewrite (match_miss_same _ _ E).
    destruct (parseCmdLit_args_total fuel
                (current (error ("unexpected toke " ++ TypeString (pTok p)) p))
                []
                (error ("unexpected toke " ++ TypeString (pTok p)) p)
                Hf) as (c & p' & H & Hl).
    exists c, p'. split; [exact H | exact Hl].
Qed.

Lemma parseCmdPipe_loop_total fuel :
  forall expr p,
    (length (stream p) < fuel)%nat ->
    exists c p', parseCmdPipe_loop fuel expr p = Some (c, p')
      /\ (length (stream p') <= length (stream p))%nat.
Proof.
  induction fuel as [|fuel IH]; intros expr p Hf; [lia|].
  cbn [parseCmdPipe_loop].
  destruct (fst (match_ OR p)) eqn:E.
  - pose proof (match_consumes OR p ltac:(compute; congruence) E) as Hc.
    destruct (parseCmdLit_total fuel (snd (match_ OR p)) ltac:(lia))
      as (x & p1 & H1 & Hl1).
    rewrite H1. cbn [mbind option_bind].
    destruct (IH (BinaryCommand expr (current (snd (match_ OR p))) x) p1
                ltac:(lia)) as (c & p' & H & Hl).
    exists c, p'. split; [exact H | lia].
  - rewrite (match_miss_same _ _ E). eexists. eexists.
    split; [reflexivity | lia].
Qed.

Lemma parseCmdPipe_total fuel p :
  (length (stream p) < fuel)%nat ->
  exists c p', parseCmdPipe fuel p = Some (c, p')
    /\ (length (stream p') <= length (stream p))%nat.
Proof.
  intros Hf. unfold parseCmdPipe.
  destruct (parseCmdLit_total fuel p Hf) as (x & p1 & H1 & Hl1).
  rewrite H1. cbn [mbind option_bind].
  destruct (parseCmdPipe_loop_total fuel x p1 ltac:(lia))
    as (c & p' & H & Hl).
  exists c, p'. split; [exact H | lia].
Qed.

Lemma parseCmdNot_total fuel p :
  (length (stream p) < fuel)%nat ->
  exists c p', parseCmdNot fuel p = Some (c, p')
    /\ (length (stream p') <= length (stream p))%nat.
Proof.
  intros Hf. unfold parseCmdNot.
  destruct (fst (match_ NOT p)) eqn:E.
  - pose proof (match_consumes NOT p ltac:(compute; congruence) E) as Hc.
    destruct (parseCmdPipe_total fuel (snd (match_ NOT p)) ltac:(lia))
      as (x & p1 & H1 & Hl1).
    rewrite H1. cbn [mbind option_bind].
    eexists. eexists. split; [reflexivity | lia].
  - rewrite (match_miss_same _ _ E). apply parseCmdPipe_total. exact Hf.
Qed.

Lemma parseCmdAnd_loop_total fuel :
  forall expr p,
    (length (stream p) < fuel)%nat ->
    exists c p', parseCmdAnd_loop fuel expr p = Some (c, p')
      /\ (length (stream p') <= length (stream p))%nat.
Proof.
  induction fuel as [|fuel IH]; intros expr p Hf; [lia|].
  cbn [parseCmdAnd_loop].
  destruct (fst (match_ LAND p)) eqn:E.
  - pose proof (match_consumes LAND p ltac:(compute; congruence) E) as Hc.
    destruct (parseCmdNot_total fuel (snd (match_ LAND p)) ltac:(lia))
      as (x & p1 & H1 & Hl1).
    rewrite H1. cbn [mbind option_bind].
    destruct (IH (LogicalCommand expr (current (snd (match_ LAND p))) x) p1
                ltac:(lia)) as (c & p' & H & Hl).
    exists c, p'. split; [exact H | lia].
  - rewrite (match_miss_same _ _ E). eexists. eexists.
    split; [reflexivity | lia].
Qed.

Lemma parseCmdAnd_total fuel p :
  (length (stream p) < fuel)%nat ->
  exists c p', parseCmdAnd fuel p = Some (c, p')
    /\ (length (stream p') <= length (stream p))%nat.
Proof.
  intros Hf. unfold parseCmdAnd.
  destruct (parseCmdNot_total fuel p Hf) as (x & p1 & H1 & Hl1).
  rewrite H1. cbn [mbind option_bind].
  destruct (parseCmdAnd_loop_total fuel x p1 ltac:(lia))
    as (c & p' & H & Hl).
  exists c, p'. split; [exact H | lia].
Qed.

Lemma parseCmdLor_loop_total fuel :
  forall expr p,
    (length (stream p) < fuel)%nat ->
    exists c p', parseCmdLor_loop fuel expr p = Some (c, p')
      /\ (length (stream p') <= length (stream p))%nat.
Proof.
  induction fuel as [|fuel IH]; intros expr p Hf; [lia|].
  cbn [parseCmdLor_loop].
  destruct (fst (match_ LOR p)) eqn:E.
  - pose proof (match_consumes LOR p ltac:(compute; congruence) E) as Hc.
    destruct (parseCmdAnd_total fuel (snd (match_ LOR p)) ltac:(lia))
      as (x & p1 & H1 & Hl1).
    rewrite H1. cbn [mbind option_bind].
    destruct (IH (LogicalCommand expr (current (snd (match_ LOR p))) x) p1
                ltac:(lia)) as (c & p' & H & Hl).
    exists c, p'. split; [exact H | lia].
  - rewrite (match_miss_same _ _ E). eexists. eexists.
    split; [reflexivity | lia].
Qed.

(** Parsing a command ends on every finite stream, with fuel above the
    number of tokens left, and only takes tokens off the stream. *)
Lemma parseCmdStmt_total fuel p :
  (length (stream p) < fuel)%nat ->
  exists c p', parseCmdStmt fuel p = Some (CmdStatement c, p')
    /\ (length (stream p') <= length (stream p))%nat.
Proof.
  intros Hf. unfold parseCmdStmt, parseCommand, parseCmdLor.
  destruct (parseCmdAnd_total fuel p Hf) as (x & p1 & H1 & Hl1).
  rewrite H1. cbn [mbind option_bind].
  destruct (parseCmdLor_loop_total fuel x p1 ltac:(lia))
    as (c & p' & H & Hl).
  rewrite H. cbn [mbind option_bind].
  exists c, p'. split; [reflexivity | lia].
Qed.

(** *** The terminator check *)

Lemma terminator_cases stmt p :
  (pTok p = SEMICOLON /\ terminator stmt p = (stmt, next p))
  \/ (pTok p <> SEMICOLON
      /\ terminator stmt p
         = (stmt, error ("unexpected token " ++ TypeString (pTok p)
                         ++ ", expected " ++ TypeString SEMICOLON) p)).
Proof.
  unfold terminator, match_.
  destruct (Z.eqb_spec (pTok p) SEMICOLON); [left | right]; split; auto.
Qed.

(** The tokens of [a ! b ;]: the semicolon after a is missing and the
    negation starts the next statement. One error, two statements. *)
Lemma parseProgram_recovers fuel a n b semi :
  Type_ a = STRING -> Type_ n = NOT -> Type_ b = STRING ->
  Type_ semi = SEMICOLON ->
  (5 < fuel)%nat ->
  parseProgram fuel (new [a; n; b; semi])
  = Some ({| Statements :=
               [Some (CmdStatement (LiteralCommand a []));
                Some (CmdStatement (UnaryCommand n (LiteralCommand b [])))] |},
          {| cur := semi; stream := [];
             errors := ["unexpected token " ++ TypeString NOT
                        ++ ", expected " ++ TypeString SEMICOLON] |}).
Proof.
  intros Ha Hn Hb Hs Hf.
  destruct fuel as [|[|[|[|[|[|fuel]]]]]]; try lia.
  unfold parseProgram, new. cbn [parseProgram_loop atEnd stream].
  rewrite parseStatement_command
    by (left; rewrite pTok_peek_kind; exact Ha).
  change [a; n; b; semi] with (a :: [] ++ [n; b; semi]).
  rewrite parseCmdStmt_word
    by (solve [assumption | constructor | kind_neq | simpl; lia]).
  cbn [mbind option_bind]. rewrite terminator_miss by kind_neq.
  cbn [peek_kind List.last app]. rewrite Hn.
  cbn [atEnd stream].
  rewrite parseStatement_command
    by (right; rewrite pTok_peek_kind; exact Hn).
  unfold parseCmdStmt, parseCommand, parseCmdLor, parseCmdAnd, parseCmdNot.
  rewrite (match_hit NOT) by assumption. cbn [fst snd current cur].
  change [b; semi] with (b :: [] ++ [semi]).
  rewrite parseCmdPipe_word
    by (solve [assumption | constructor | kind_neq | simpl; lia]).
  cbn [mbind option_bind List.last].
  rewrite parseCmdAnd_loop_exit by kind_neq. cbn [mbind option_bind].
  rewrite parseCmdLor_loop_exit by kind_neq. cbn [mbind option_bind].
  rewrite terminator_hit by assumption.
  reflexivity.
Qed.

(** C4, as stated, fails on its input. For the source "a\nb;" the lexer
    sends no token: the first byte is the letter a, which [isAlphabet]
    does not take, so [lexBase] hands over to [lexCmd] and the stream is
    closed empty. The parser then returns a program with no statement
    and reports no error; no amount of fuel, and no choice of the
    scanning helpers, yields one error and two statements. *)
Lemma two_lines_source_gives_no_statement :
  front_end plain 2 two_lines
  = Some ({| Statements := [] |}, new [])
  /\ ~ (exists X, one_error_two_statements_of X two_lines).
Proof.
  split; [vm_compute; reflexivity|].
  intros (X & fuel & prog & p' & H & He & s1 & s2 & Hs).
  unfold front_end, lexer.run in H.
  destruct fuel as [|[|fuel]]; [discriminate H | |].
  - cbn [lexer.states] in H.
    change (lexer.call X lexer.lexBase (lexer.Lex two_lines true))
      with (Some (Some lexer.lexCmd, lexer.Lex two_lines true)) in H.
    discriminate H.
  - cbn [lexer.states] in H.
    change (lexer.call X lexer.lexBase (lexer.Lex two_lines true))
      with (Some (Some lexer.lexCmd, lexer.Lex two_lines true)) in H.
    cbn [mbind option_bind fst snd] in H.
    change (lexer.call X lexer.lexCmd (lexer.Lex two_lines true))
      with (Some (@None lexer.stateFunc, lexer.Lex two_lines true)) in H.
    cbn [mbind option_bind fst snd] in H.
    rewrite states_nil in H. cbn [mbind option_bind] in H.
    change (parseProgram (S (S fuel))
              (new (lexer.Tokens (lexer.close (lexer.Lex two_lines true)))))
      with (Some ({| Statements := [] |}, new [])) in H.
    inversion H; subst. discriminate Hs.
Qed.

(** C4, amended: every parse of a statement ends with the terminator
    check, which either consumes the semicolon or reports one syntax
    error and consumes nothing; the statement is returned either way,
    and the loop of [parseProgram] appends it and goes on with the next
    statement where the check left the parser, at the token found in
    place of the semicolon. A statement that begins a command always
    returns. So for the tokens of [a ! b ;] (no semicolon after a)
    exactly one syntax error is reported and two statements are
    returned. *)
Theorem missing_terminator_is_reported_and_parsing_goes_on :
  (forall fuel stmts p stmt p',
     parseStatement fuel p = Some (stmt, p') ->
     pTok p = LBRACE \/ pTok p = LET \/ pTok p = IF \/ pTok p = FOR
     \/ pTok p = STRING \/ pTok p = NOT ->
     parseProgram_loop (S fuel) stmts p
     = parseProgram_loop fuel (stmts ++ [stmt]) p'
     /\ exists p1,
       (pTok p1 = SEMICOLON /\ p' = next p1)
       \/ (pTok p1 <> SEMICOLON
           /\ p' = error ("unexpected token " ++ TypeString (pTok p1)
                          ++ ", expected " ++ TypeString SEMICOLON) p1))
  /\ (forall fuel p,
     pTok p = STRING \/ pTok p = NOT ->
     (length (stream p) + 1 < fuel)%nat ->
     exists c p', parseStatement fuel p = Some (Some (CmdStatement c), p'))
  /\ (forall fuel a n b semi,
     Type_ a = STRING -> Type_ n = NOT -> Type_ b = STRING ->
     Type_ semi = SEMICOLON ->
     (5 < fuel)%nat ->
     parseProgram fuel (new [a; n; b; semi])
     = Some ({| Statements :=
                  [Some (CmdStatement (LiteralCommand a []));
                   Some (CmdStatement
                           (UnaryCommand n (LiteralCommand b [])))] |},
             {| cur := semi; stream := [];
                errors := ["unexpected token " ++ TypeString NOT
                           ++ ", expected " ++ TypeString SEMICOLON] |})).
Proof.
  split; [|split].
  - intros fuel stmts p stmt p' H Hstart.
    split.
    { cbn [parseProgram_loop].
      assert (Hend : atEnd p = false).
      { destruct p as [c [|t ts] e]; [|reflexivity].
        exfalso. cbn in Hstart.
        destruct Hstart as [E | [E | [E | [E | [E | E]]]]];
          compute in E; congruence. }
      rewrite Hend, H. reflexivity. }
    destruct fuel as [|fuel]; [discriminate|].
    cbn [parseStatement] in H.
    assert (Hterm : forall s p1,
              Some (terminator s p1) = Some (stmt, p') ->
              exists p1,
                (pTok p1 = SEMICOLON /\ p' = next p1)
                \/ (pTok p1 <> SEMICOLON
                    /\ p' = error ("unexpected token " ++ TypeString (pTok p1)
                                   ++ ", expected " ++ TypeString SEMICOLON)
                               p1)).
    { intros s p1 E. exists p1.
      destruct (terminator_cases s p1) as [[Hk Ht] | [Hk Ht]];
        rewrite Ht in E; inversion E; subst; auto. }
    destruct (Z.eqb_spec (pTok p) LBRACE) as [_ | N1].
    { destruct (parseBlockStmt fuel p) as [[b p1]|]; [|discriminate].
      exact (Hterm _ _ H). }
    destruct (Z.eqb_spec (pTok p) LET) as [_ | N2]; [exact (Hterm _ _ H)|].
    destruct (Z.eqb_spec (pTok p) IF) as [_ | N3]; [exact (Hterm _ _ H)|].
    destruct (Z.eqb_spec (pTok p) FOR) as [_ | N4]; [exact (Hterm _ _ H)|].
    destruct (Z.eqb_spec (pTok p) STRING) as [_ | N5].
    { cbn [orb] in H.
      destruct (parseCmdStmt fuel p) as [[c p1]|]; [|discriminate].
      exact (Hterm _ _ H). }
    destruct (Z.eqb_spec (pTok p) NOT) as [_ | N6].
    { cbn [orb] in H.
      destruct (parseCmdStmt fuel p) as [[c p1]|]; [|discriminate].
      exact (Hterm _ _ H). }
    exfalso. intuition congruence.
  - intros fuel p Hstart Hf.
    destruct fuel as [|fuel]; [lia|].
    rewrite parseStatement_command by assumption.
    destruct (parseCmdStmt_total fuel p ltac:(lia)) as (c & p1 & H1 & _).
    rewrite H1. cbn [mbind option_bind].
    exists c.
    destruct (terminator_cases (Some (CmdStatement c)) p1)
      as [[_ Ht] | [_ Ht]]; rewrite Ht; eexists; reflexivity.
  - apply parseProgram_recovers.
Qed.

Lemma missing_terminator_is_reported_and_parsing_goes_on_witness :
  (parseProgram_loop 9 []
     (new [tk STRING "a" 1 1; tk NOT "!" 1 3; tk STRING "b" 1 5;
           tk SEMICOLON ";" 1 6])
   = parseProgram_loop 8
       ([] ++ [Some (CmdStatement (LiteralCommand (tk STRING "a" 1 1) []))])
       {| cur := tk STRING "a" 1 1;
          stream := [tk NOT "!" 1 3; tk STRING "b" 1 5; tk SEMICOLON ";" 1 6];
          errors := ["unexpected token !, expected ;"] |}
   /\ exists p1,
     (pTok p1 = SEMICOLON
      /\ {| cur := tk STRING "a" 1 1;
            stream := [tk NOT "!" 1 3; tk STRING "b" 1 5;
                       tk SEMICOLON ";" 1 6];
            errors := ["unexpected token !, expected ;"] |} = next p1)
     \/ (pTok p1 <> SEMICOLON
         /\ {| cur := tk STRING "a" 1 1;
               stream := [tk NOT "!" 1 3; tk STRING "b" 1 5;
                          tk SEMICOLON ";" 1 6];
               errors := ["unexpected token !, expected ;"] |}
            = error ("unexpected token " ++ TypeString (pTok p1)
                     ++ ", expected " ++ TypeString SEMICOLON) p1))
  /\ (exists c p',
        parseStatement 8
          (new [tk STRING "a" 1 1; tk NOT "!" 1 3; tk STRING "b" 1 5;
                tk SEMICOLON ";" 1 6])
        = Some (Some (CmdStatement c), p'))
  /\ parseProgram 8
       (new [tk STRING "a" 1 1; tk NOT "!" 1 3; tk STRING "b" 1 5;
             tk SEMICOLON ";" 1 6])
     = Some ({| Statements :=
                  [Some (CmdStatement (LiteralCommand (tk STRING "a" 1 1) []));
                   Some (CmdStatement
                           (UnaryCommand (tk NOT "!" 1 3)
                              (LiteralCommand (tk STRING "b" 1 5) [])))] |},
             {| cur := tk SEMICOLON ";" 1 6; stream := [];
                errors := ["unexpected token !, expected ;"] |}).
Proof.
  split; [|split].
  - refine (proj1 missing_terminator_is_reported_and_parsing_goes_on
              8%nat []
              (new [tk STRING "a" 1 1; tk NOT "!" 1 3; tk STRING "b" 1 5;
                    tk SEMICOLON ";" 1 6])
              (Some (CmdStatement (LiteralCommand (tk STRING "a" 1 1) [])))
              _ _ _).
    + vm_compute. reflexivity.
    + right. right. right. right. left. reflexivity.
  - refine (proj1 (proj2 missing_terminator_is_reported_and_parsing_goes_on)
              8%nat
              (new [tk STRING "a" 1 1; tk NOT "!" 1 3; tk STRING "b" 1 5;
                    tk SEMICOLON ";" 1 6])
              _ _).
    + left. reflexivity.
    + vm_compute. lia.
  - refine (proj2 (proj2 missing_terminator_is_reported_and_parsing_goes_on)
              8%nat (tk STRING "a" 1 1) (tk NOT "!" 1 3) (tk STRING "b" 1 5)
              (tk SEMICOLON ";" 1 6) _ _ _ _ _); concrete.
Defined.

End ParserFacts.
